(** * EANet notebook (examples/vision/ipynb/eanet.ipynb)

    A shallow embedding of the code cells of the notebook.

    - [Keras]: the functional-API code ([external_attention], [mlp],
      [transformer_encoder]) run on symbolic tensors.  A symbolic tensor
      carries a static shape; calling a layer on it checks the shape,
      appends a node to the layer graph and returns the new tensor.
      Python exceptions are values of [exn]; the graph is threaded through
      a state monad, and a raised exception keeps the graph built so far.
    - [Eager]: [PatchExtract.call] on concrete tensors (a shape and a
      row-major buffer), with [tf.image.extract_patches] and [tf.reshape].
    - [Attention]: the values computed by the two normalisation lines of
      [external_attention], over the real numbers.

    The behaviour of the TensorFlow / Keras primitives that the notebook
    calls (shape inference of [Dense], [tf.reshape], ...) is written out
    next to each primitive. *)

From Stdlib Require Import String Arith ZArith List Bool Lia QArith Reals Lra.
From Stdlib Require Import Permutation.
Import ListNotations.

(** ** Python and TensorFlow exceptions *)

Inductive exn : Type :=
| AssertionError
| ZeroDivisionError
| ValueError
| TypeError
| InvalidArgumentError.

Module Keras.

Local Open Scope Z_scope.

(** *** Symbolic shapes *)

(** A dimension of a static shape is an integer or [None]. *)
Definition dim := option Z.
Definition shape := list dim.

Inductive activation : Type := linear | gelu.

(** The layers and TensorFlow operations that the notebook applies to
    symbolic tensors. *)
Inductive layer : Type :=
| InputLayer (input_shape : list Z)
| Dense (units : Z) (act : activation)
| Softmax (axis : Z)
| Dropout (rate : Q)
| LayerNormalization (epsilon : Q)
| MultiHeadAttention (num_heads key_dim : Z) (dropout : Q)
| Add
| TFReshape (target : list Z)        (* tf.reshape(x, target) *)
| TFTranspose (perm : list nat)      (* tf.transpose(x, perm) *)
| TFReduceSum (axis : Z) (keepdims : bool)
| TFAddScalar (c : Q)                (* c + x *)
| TFDivide.                          (* x / y, broadcasting *)

(** A node of the layer graph: the layer and the tensors it was called on. *)
Record node : Type := { op : layer; inbound : list nat }.
Definition graph := list node.

(** A symbolic tensor: the index of the node that produced it (or of the
    position the next node will take, for a tensor made before the graph
    grows) and its static shape. *)
Record KerasTensor : Type := { tid : nat; tshape : shape }.

(** *** Shape inference of the primitives *)

Definition zprod (l : list Z) : Z := fold_right Z.mul 1 l.

(** Number of elements, when every dimension is known. *)
Fixpoint num_elements (s : shape) : option Z :=
  match s with
  | [] => Some 1
  | Some n :: s' => option_map (Z.mul n) (num_elements s')
  | None :: _ => None
  end.

(** A dropout rate is a float in [0, 1). *)
Definition valid_rate (r : Q) : bool := Qle_bool 0 r && negb (Qle_bool 1 r).

(** [Dense(units)]: at least rank 2, last dimension defined, units not
    negative; replaces the last dimension by [units]. *)
Definition dense_shape (units : Z) (s : shape) : exn + shape :=
  if units <? 0 then inl ValueError
  else match rev s with
       | Some _ :: (_ :: _) as leading => inr (rev leading ++ [Some units])
       | _ => inl ValueError
       end.

(** [tf.reshape]: at most one entry of the target is -1; it is inferred
    from the number of elements when that is known, and stays unknown
    otherwise. *)
Definition reshape_shape (target : list Z) (s : shape) : exn + shape :=
  if existsb (fun t => t <? -1) target then inl ValueError
  else
    let known := filter (fun t => negb (t =? -1)) target in
    let fill (d : dim) := map (fun t => if t =? -1 then d else Some t) target in
    match (length target - length known)%nat with
    | O => match num_elements s with
           | Some n => if n =? zprod target then inr (fill None) else inl ValueError
           | None => inr (fill None)
           end
    | S O => match num_elements s with
             | Some n =>
                 if zprod known =? 0 then inr (fill None)
                 else if n mod zprod known =? 0 then inr (fill (Some (n / zprod known)))
                 else inl ValueError
             | None => inr (fill None)
             end
    | _ => inl ValueError
    end.

Fixpoint is_perm_of_range (perm : list nat) (n : nat) : bool :=
  match n with
  | O => true
  | S m => existsb (Nat.eqb m) perm && is_perm_of_range perm m
  end.

(** [tf.transpose]: [perm] is a permutation of the axes. *)
Definition transpose_shape (perm : list nat) (s : shape) : exn + shape :=
  if Nat.eqb (length perm) (length s) && is_perm_of_range perm (length s)
  then inr (map (fun i => nth i s None) perm)
  else inl ValueError.

Definition axis_in_range (axis : Z) (s : shape) : bool :=
  (- Z.of_nat (length s) <=? axis) && (axis <? Z.of_nat (length s)).

(** [tf.reduce_sum(x, axis, keepdims)]. *)
Definition reduce_sum_shape (axis : Z) (keepdims : bool) (s : shape) : exn + shape :=
  if axis_in_range axis s then
    let i := Z.to_nat (if axis <? 0 then axis + Z.of_nat (length s) else axis) in
    inr (firstn i s ++ (if keepdims then [Some 1] else []) ++ skipn (S i) s)
  else inl ValueError.

(** Broadcasting of two dimensions. *)
Definition broadcast_dim (a b : dim) : exn + dim :=
  match a, b with
  | Some i, Some j =>
      if i =? 1 then inr (Some j)
      else if j =? 1 then inr (Some i)
      else if i =? j then inr (Some i) else inl ValueError
  | Some i, None => inr (if i =? 1 then None else Some i)
  | None, Some j => inr (if j =? 1 then None else Some j)
  | None, None => inr None
  end.

Fixpoint broadcast_aligned (s1 s2 : shape) : exn + shape :=
  match s1, s2 with
  | a :: s1', b :: s2' =>
      match broadcast_dim a b, broadcast_aligned s1' s2' with
      | inr d, inr s => inr (d :: s)
      | inl e, _ => inl e
      | _, inl e => inl e
      end
  | [], s => inr s
  | s, [] => inr s
  end.

(** Elementwise operators broadcast from the last axis backwards. *)
Definition broadcast_shape (s1 s2 : shape) : exn + shape :=
  match broadcast_aligned (rev s1) (rev s2) with
  | inr s => inr (rev s)
  | inl e => inl e
  end.

(** Keras merge layers ([layers.add]): per-dimension rule of
    [_compute_elemwise_op_output_shape]. *)
Definition merge_dim (a b : dim) : exn + dim :=
  match a, b with
  | Some i, Some j =>
      if i =? 1 then inr (Some j)
      else if j =? 1 then inr (Some i)
      else if i =? j then inr (Some i) else inl ValueError
  | _, _ => inr None
  end.

Fixpoint merge_aligned (s1 s2 : shape) : exn + shape :=
  match s1, s2 with
  | a :: s1', b :: s2' =>
      match merge_dim a b, merge_aligned s1' s2' with
      | inr d, inr s => inr (d :: s)
      | inl e, _ => inl e
      | _, inl e => inl e
      end
  | [], s => inr s
  | s, [] => inr s
  end.

(** The batch dimensions of the inputs of a merge layer must agree when
    both are known; the rest is merged from the last axis backwards. *)
Definition add_shape (s1 s2 : shape) : exn + shape :=
  match s1, s2 with
  | b1 :: r1, b2 :: r2 =>
      match b1, b2 with
      | Some i, Some j =>
          if i =? j then
            match merge_aligned (rev r1) (rev r2) with
            | inr r => inr (Some i :: rev r)
            | inl e => inl e
            end
          else inl ValueError
      | Some i, None | None, Some i =>
          match merge_aligned (rev r1) (rev r2) with
          | inr r => inr (Some i :: rev r)
          | inl e => inl e
          end
      | None, None =>
          match merge_aligned (rev r1) (rev r2) with
          | inr r => inr (None :: rev r)
          | inl e => inl e
          end
      end
  | _, _ => inl ValueError
  end.

(** [MultiHeadAttention(...)(query, value)] without [output_shape]: the
    output has the shape of the query. *)
Definition mha_shape (q v : shape) : exn + shape :=
  match rev q, rev v with
  | Some _ :: _ :: _ :: _, Some _ :: _ :: _ :: _ =>
      if Nat.eqb (length q) (length v) then inr q else inl ValueError
  | _, _ => inl ValueError
  end.

Definition compute_output_shape (l : layer) (ins : list shape) : exn + shape :=
  match l, ins with
  | Dense units _, [s] => dense_shape units s
  | Softmax axis, [s] => if axis_in_range axis s then inr s else inl ValueError
  | Dropout rate, [s] => if valid_rate rate then inr s else inl ValueError
  | LayerNormalization _, [s] =>
      match rev s with
      | Some _ :: _ => inr s
      | _ => inl ValueError
      end
  | MultiHeadAttention _ _ rate, [q; v] =>
      if valid_rate rate then mha_shape q v else inl ValueError
  | Add, [s1; s2] => add_shape s1 s2
  | TFReshape target, [s] => reshape_shape target s
  | TFTranspose perm, [s] => transpose_shape perm s
  | TFReduceSum axis keepdims, [s] => reduce_sum_shape axis keepdims s
  | TFAddScalar _, [s] => inr s
  | TFDivide, [s1; s2] => broadcast_shape s1 s2
  | _, _ => inl TypeError
  end.

(** *** The graph-building monad *)

Definition M (A : Type) : Type := graph -> (exn + A) * graph.

Definition ret {A} (a : A) : M A := fun g => (inr a, g).
Definition raise {A} (e : exn) : M A := fun g => (inl e, g).
Definition bind {A B} (m : M A) (f : A -> M B) : M B :=
  fun g => match m g with
           | (inr a, g') => f a g'
           | (inl e, g') => (inl e, g')
           end.

Declare Scope keras_scope.
Delimit Scope keras_scope with keras.
Notation "x <- m ;; k" := (bind m (fun x => k))
  (at level 61, m at next level, right associativity) : keras_scope.
Notation "m ;; k" := (bind m (fun _ => k))
  (at level 61, right associativity) : keras_scope.
Local Open Scope keras_scope.

(** Calling a layer on symbolic tensors: infer the output shape, add the
    node, return the tensor the node produces. *)
Definition call (l : layer) (inputs : list KerasTensor) : M KerasTensor :=
  fun g =>
    match compute_output_shape l (map tshape inputs) with
    | inr s => (inr {| tid := length g; tshape := s |},
                g ++ [{| op := l; inbound := map tid inputs |}])
    | inl e => (inl e, g)
    end.

(** [layers.Input(shape=...)]: a new input node; the batch dimension is
    left undefined. *)
Definition Input (input_shape : list Z) : M KerasTensor :=
  fun g => (inr {| tid := length g; tshape := None :: map Some input_shape |},
            g ++ [{| op := InputLayer input_shape; inbound := [] |}]).

(** [a % b] and [a // b] on Python integers. *)
Definition py_mod (a b : Z) : M Z :=
  if b =? 0 then raise ZeroDivisionError else ret (a mod b).
Definition py_floordiv (a b : Z) : M Z :=
  if b =? 0 then raise ZeroDivisionError else ret (a / b).
Definition py_assert (c : bool) : M unit :=
  if c then ret tt else raise AssertionError.

(** A [None] dimension cannot be used as an entry of a target shape. *)
Definition as_int (d : dim) : M Z :=
  match d with
  | Some n => ret n
  | None => raise TypeError
  end.

(** [_, num_patch, channel = x.shape] *)
Definition unpack3 (s : shape) : M (dim * dim) :=
  match s with
  | [_; num_patch; channel] => ret (num_patch, channel)
  | _ => raise ValueError
  end.

(** *** The notebook's functions *)

Definition eps_1e_9 : Q := 1 # 1000000000.
Definition eps_1e_5 : Q := 1 # 100000.

Definition external_attention (x : KerasTensor) (dim num_heads : Z)
    (dim_coefficient : Z) (attention_dropout projection_dropout : Q)
    : M KerasTensor :=
  nc <- unpack3 (tshape x) ;;
  let num_patch := fst nc in
  r <- py_mod dim num_heads ;;
  py_assert (r =? 0) ;;
  let num_heads := num_heads * dim_coefficient in
  x <- call (Dense (dim * dim_coefficient) linear) [x] ;;
  w <- py_floordiv (dim * dim_coefficient) num_heads ;;
  np <- as_int num_patch ;;
  x <- call (TFReshape [-1; np; num_heads; w]) [x] ;;
  x <- call (TFTranspose [0; 2; 1; 3]%nat) [x] ;;
  (* a linear layer M_k *)
  u <- py_floordiv dim dim_coefficient ;;
  attn <- call (Dense u linear) [x] ;;
  (* normalize attention map *)
  attn <- call (Softmax 2) [attn] ;;
  (* double-normalization *)
  s <- call (TFReduceSum (-1) true) [attn] ;;
  s <- call (TFAddScalar eps_1e_9) [s] ;;
  attn <- call TFDivide [attn; s] ;;
  attn <- call (Dropout attention_dropout) [attn] ;;
  (* a linear layer M_v *)
  v <- py_floordiv (dim * dim_coefficient) num_heads ;;
  x <- call (Dense v linear) [attn] ;;
  x <- call (TFTranspose [0; 2; 1; 3]%nat) [x] ;;
  x <- call (TFReshape [-1; np; dim * dim_coefficient]) [x] ;;
  (* a linear layer to project original dim *)
  x <- call (Dense dim linear) [x] ;;
  x <- call (Dropout projection_dropout) [x] ;;
  ret x.

Definition mlp (x : KerasTensor) (embedding_dim mlp_dim : Z) (drop_rate : Q)
    : M KerasTensor :=
  x <- call (Dense mlp_dim gelu) [x] ;;
  x <- call (Dropout drop_rate) [x] ;;
  x <- call (Dense embedding_dim linear) [x] ;;
  x <- call (Dropout drop_rate) [x] ;;
  ret x.

(** Default of [mlp]'s [drop_rate]. *)
Definition mlp_drop_rate : Q := 2 # 10.

Definition transformer_encoder (x : KerasTensor)
    (embedding_dim mlp_dim num_heads dim_coefficient : Z)
    (attention_dropout projection_dropout : Q) (attention_type : string)
    : M KerasTensor :=
  let residual_1 := x in
  x <- call (LayerNormalization eps_1e_5) [x] ;;
  x <- (if String.eqb attention_type "external_attention" then
          external_attention x embedding_dim num_heads dim_coefficient
            attention_dropout projection_dropout
        else if String.eqb attention_type "self_attention" then
          call (MultiHeadAttention num_heads embedding_dim attention_dropout) [x; x]
        else ret x) ;;
  x <- call Add [x; residual_1] ;;
  let residual_2 := x in
  x <- call (LayerNormalization eps_1e_5) [x] ;;
  x <- mlp x embedding_dim mlp_dim mlp_drop_rate ;;
  x <- call Add [x; residual_2] ;;
  ret x.

(** Hyperparameters of the notebook. *)
Definition input_shape : list Z := [32; 32; 3].
Definition patch_size : Z := 2.
Definition num_patches : Z := (nth 0 input_shape 0 / patch_size) ^ 2.
Definition embedding_dim : Z := 64.
Definition mlp_dim : Z := 64.
Definition dim_coefficient : Z := 4.
Definition num_heads : Z := 4.
Definition attention_dropout : Q := 2 # 10.
Definition projection_dropout : Q := 2 # 10.

(** A symbolic input of [num_patches] embeddings of width
    [embedding_dim], the shape that reaches the transformer stack in
    [get_model], and the one-node graph that holds it. *)
Definition embedded_patches : KerasTensor :=
  {| tid := 0; tshape := [None; Some num_patches; Some embedding_dim] |}.

Definition embedded_graph : graph :=
  [ {| op := InputLayer [num_patches; embedding_dim]; inbound := [] |} ].

(** The same sequence with patches of width 65, which [num_heads] = 4
    does not divide. *)
Definition patches_65 : KerasTensor :=
  {| tid := 0; tshape := [None; Some num_patches; Some 65] |}.

Definition graph_65 : graph :=
  [ {| op := InputLayer [num_patches; 65]; inbound := [] |} ].

End Keras.

(** ** Concrete tensors: [PatchExtract] *)

Module Eager.

Local Open Scope nat_scope.

Section Tensors.

(** The element type, with the value read outside of a buffer (never
    reached on a tensor whose buffer has as many elements as its shape
    says). *)
Context {A : Type} (zero : A).

(** A concrete tensor: its shape and its elements in row-major order. *)
Record tensor : Type := { shape : list nat; data : list A }.

Definition size (s : list nat) : nat := fold_right Nat.mul 1 s.

(** [tf.reshape(t, new_shape)] with every entry given: the element count
    must not change; the buffer is kept. *)
Definition reshape (t : tensor) (new_shape : list nat) : exn + tensor :=
  if size new_shape =? size (shape t)
  then inr {| shape := new_shape; data := data t |}
  else inl InvalidArgumentError.

(** Position in the image buffer of element [k] of the patches buffer.
    [k] is the row-major index of (image n, grid row i, grid column j,
    row dy in the patch, column dx in the patch, channel ch). *)
Definition patch_source (p h w c rows cols k : nat) : nat :=
  let ch := k mod c in
  let k1 := k / c in
  let dx := k1 mod p in
  let k2 := k1 / p in
  let dy := k2 mod p in
  let k3 := k2 / p in
  let j := k3 mod cols in
  let k4 := k3 / cols in
  let i := k4 mod rows in
  let n := k4 / rows in
  ((n * h + (i * p + dy)) * w + (j * p + dx)) * c + ch.

(** [tf.image.extract_patches(images, sizes=(1, p, p, 1),
    strides=(1, p, p, 1), rates=(1, 1, 1, 1), padding="VALID")]:
    non-overlapping p x p tiles, each flattened (row, column, channel) into
    the last axis; a remainder of rows or columns is dropped. *)
Definition extract_patches (p : nat) (images : tensor) : exn + tensor :=
  match shape images with
  | [b; h; w; c] =>
      if p =? 0 then inl InvalidArgumentError
      else
        let rows := h / p in
        let cols := w / p in
        let out_shape := [b; rows; cols; p * p * c] in
        inr {| shape := out_shape;
               data := map (fun k => nth (patch_source p h w c rows cols k)
                                         (data images) zero)
                           (seq 0 (size out_shape)) |}
  | _ => inl InvalidArgumentError
  end.

(** [PatchExtract(patch_size).call(images)] *)
Definition PatchExtract_call (patch_size : nat) (images : tensor) : exn + tensor :=
  match shape images with
  | batch_size :: _ =>
      match extract_patches patch_size images with
      | inr patches =>
          let patch_dim := last (shape patches) 0 in
          let patch_num := nth 1 (shape patches) 0 in
          reshape patches [batch_size; patch_num * patch_num; patch_dim]
      | inl e => inl e
      end
  | [] => inl InvalidArgumentError
  end.

(** Reassembly of a patch sequence, as the specification words it: the
    patches are laid out on a [rows] x [cols] grid in sequence order
    (row-major), and the elements of a patch fill its p x p tile row by
    row, channels innermost.  [pixel_source] is the position in the
    sequence buffer of element [idx] of the image buffer. *)
Definition pixel_source (p rows cols c idx : nat) : nat :=
  let h := rows * p in
  let w := cols * p in
  let ch := idx mod c in
  let t1 := idx / c in
  let x := t1 mod w in
  let t2 := t1 / w in
  let y := t2 mod h in
  let n := t2 / h in
  (n * (rows * cols) + (y / p) * cols + x / p) * (p * p * c)
  + ((y mod p) * p + x mod p) * c + ch.

Definition reassemble (p rows cols c : nat) (patches : tensor) : tensor :=
  let b := nth 0 (shape patches) 0 in
  let img_shape := [b; rows * p; cols * p; c] in
  {| shape := img_shape;
     data := map (fun idx => nth (pixel_source p rows cols c idx)
                                 (data patches) zero)
                 (seq 0 (size img_shape)) |}.

End Tensors.

Arguments tensor A : clear implicits.

(** Row-major positions, for an image batch of [rows * p] by [cols * p]
    pixels with [c] channels.  [image_index] is the position in the image
    buffer of pixel (row [yq * p + yr], column [xq * p + xr], channel
    [ch]) of image [n]; [patch_index] is the position in the patches
    buffer of element (yr, xr, ch) of patch (yq, xq) of image [n]. *)
Definition image_index (p rows cols c n yq yr xq xr ch : nat) : nat :=
  ((n * (rows * p) + (yq * p + yr)) * (cols * p) + (xq * p + xr)) * c + ch.

Definition patch_index (p rows cols c n yq yr xq xr ch : nat) : nat :=
  ((n * rows + yq) * cols + xq) * (p * p * c) + ((yr * p + xr) * c + ch).

End Eager.

(** ** Values of the attention map: the double normalisation *)

Module Attention.

Local Open Scope R_scope.

(** A rank-4 tensor, indexed (batch, head, patch, position on the last
    axis).  An entry is the real number that a float32 entry denotes.
    The operations of this module are the exact ones, which the float32
    operations of the runtime round; module [Float32] below has the
    rounded ones. *)
Definition tensor4 := list (list (list (list R))).

Definition row (t : tensor4) (b h n : nat) : list R :=
  nth n (nth h (nth b t []) []) [].

Definition entry (t : tensor4) (b h n j : nat) : R :=
  nth j (row t b h n) 0.

Definition total (l : list R) : R := fold_right Rplus 0 l.

Definition zip_with {X Y Z} (f : X -> Y -> Z) (l1 : list X) (l2 : list Y) : list Z :=
  map (fun xy => f (fst xy) (snd xy)) (combine l1 l2).

(** Softmax over the rows of a (patch x position) matrix: the entry at
    (n, j) is divided by the sum over all patches n' of the exponentials
    at (n', j). *)
Definition softmax_over_patches (m : list (list R)) : list (list R) :=
  map (fun r =>
         zip_with (fun j v => exp v / total (map (fun r' => exp (nth j r' 0)) m))
                  (seq 0 (length r)) r)
      m.

(** [layers.Softmax(axis=2)] on a rank-4 tensor: axis 2 is the patch axis. *)
Definition Softmax_axis2 (t : tensor4) : tensor4 :=
  map (map softmax_over_patches) t.

(** [tf.reduce_sum(t, axis=-1, keepdims=True)] *)
Definition reduce_sum_last (t : tensor4) : tensor4 :=
  map (map (map (fun r => [total r]))) t.

(** [c + t] *)
Definition add_scalar (c : R) (t : tensor4) : tensor4 :=
  map (map (map (map (Rplus c)))) t.

(** [a / b], the last axis of [b] having length 1. *)
Definition divide (a b : tensor4) : tensor4 :=
  zip_with (zip_with (zip_with (fun ra rb => map (fun v => v / nth 0 rb 0) ra))) a b.

(** The constant [1e-9], exactly. *)
Definition eps : R := / 1000000000.

(** The two normalisation lines of [external_attention]:
      attn = layers.Softmax(axis=2)(attn)
      attn = attn / (1e-9 + tf.reduce_sum(attn, axis=-1, keepdims=True)) *)
Definition double_normalization (attn : tensor4) : tensor4 :=
  let attn := Softmax_axis2 attn in
  divide attn (add_scalar eps (reduce_sum_last attn)).

(** Logits of one head over two patches, used as test inputs. *)
Definition distant_logits : tensor4 := [[[[0]; [-32]]]].
Definition crossing_logits : tensor4 := [[[[1; 3]; [0; 0]]]].

End Attention.

(** ** Values of the attention map: the re-normalisation in float32 *)

Module Float32.

Import Attention.
Local Open Scope R_scope.

Section Arithmetic.

(** The line
      attn = attn / (1e-9 + tf.reduce_sum(attn, axis=-1, keepdims=True))
    runs in float32.  A float32 number is read as the real number it
    denotes; the operations of the runtime on such numbers are not part
    of the notebook and are taken as parameters:
    - [eps32], the float32 number that the constant [1e-9] is converted to;
    - [fadd x y], the float32 sum of [x] and [y];
    - [fdiv x y], the float32 quotient of [x] by [y];
    - [fsum r], the float32 sum of a row, as [tf.reduce_sum] computes it. *)
Variable eps32 : R.
Variables fadd fdiv : R -> R -> R.
Variable fsum : list R -> R.

(** [tf.reduce_sum(t, axis=-1, keepdims=True)] *)
Definition reduce_sum_last32 (t : tensor4) : tensor4 :=
  map (map (map (fun r => [fsum r]))) t.

(** [c + t] *)
Definition add_scalar32 (c : R) (t : tensor4) : tensor4 :=
  map (map (map (map (fadd c)))) t.

(** [a / b], the last axis of [b] having length 1. *)
Definition divide32 (a b : tensor4) : tensor4 :=
  zip_with (zip_with (zip_with (fun ra rb => map (fun v => fdiv v (nth 0 rb 0)) ra))) a b.

(** The re-normalisation line of [external_attention]. *)
Definition renormalize (attn : tensor4) : tensor4 :=
  divide32 attn (add_scalar32 eps32 (reduce_sum_last32 attn)).

(** [sums_to r s]: [s] is obtained from the entries of the non-empty row
    [r] by float32 additions, each entry used once, in some order and
    with some bracketing. *)
Inductive sums_to : list R -> R -> Prop :=
| sums_one v : sums_to [v] v
| sums_split r1 r2 s1 s2 :
    sums_to r1 s1 -> sums_to r2 s2 -> sums_to (r1 ++ r2) (fadd s1 s2)
| sums_perm r r' s : Permutation r r' -> sums_to r s -> sums_to r' s.

(** What is assumed of the float32 operations, with [u] the unit
    roundoff, [eta] the largest error of a quotient that underflows and
    [big] a bound below which no result overflows (for IEEE 754 binary32
    with rounding to nearest: 2^-24, 2^-150 and 2^127):
    - [eps32] is [1e-9] rounded;
    - a sum of two non-negative numbers has relative error at most [u];
    - a quotient of a non-negative number by a positive one has relative
      error at most [u], up to an absolute error of [eta];
    - the quotient by a positive number is monotone in the numerator;
    - [fsum] adds the entries of the row with [fadd], in some order. *)
Record float_arithmetic (u eta big : R) : Prop := {
  u_range : 0 <= u < 1;
  eta_range : 0 <= eta;
  big_range : 1000000000 <= big * (1 - u) ^ 2;
  eps32_value : / 1000000000 * (1 - u) <= eps32 <= / 1000000000 * (1 + u);
  fadd_error : forall x y,
    0 <= x -> 0 <= y -> x + y <= big ->
    (x + y) * (1 - u) <= fadd x y <= (x + y) * (1 + u);
  fdiv_error : forall x y,
    0 <= x -> 0 < y -> x / y <= big ->
    x / y * (1 - u) - eta <= fdiv x y <= x / y * (1 + u) + eta;
  fdiv_monotone : forall x x' y,
    0 <= x -> x <= x' -> 0 < y -> x' / y <= big ->
    fdiv x y <= fdiv x' y;
  fsum_nil : fsum [] = 0;
  fsum_order : forall r, r <> [] -> sums_to r (fsum r)
}.

End Arithmetic.

(** Softmax outputs used as test inputs: two patches with two scores
    each, and two patches with one score each, the second one faint. *)
Definition quarters : tensor4 := [[[[/ 4; 3 / 4]; [3 / 4; / 4]]]].
Definition faint : tensor4 := [[[[1 - / 2000000000]; [/ 2000000000]]]].

End Float32.

(** ** The transformer stack and the shape of the layer graph *)

Module Blocks.

Import Keras.
Local Open Scope Z_scope.
Local Open Scope keras_scope.

(** The loop of [get_model]:
      for _ in range(num_transformer_blocks):
          x = transformer_encoder(x, embedding_dim, ..., attention_type)
    [blocks] is the number of iterations left. *)
Fixpoint transformer_loop (blocks : nat) (x : KerasTensor)
    (embedding_dim mlp_dim num_heads dim_coefficient : Z)
    (attention_dropout projection_dropout : Q) (attention_type : string)
    : M KerasTensor :=
  match blocks with
  | O => ret x
  | S blocks' =>
      x <- transformer_encoder x embedding_dim mlp_dim num_heads dim_coefficient
             attention_dropout projection_dropout attention_type ;;
      transformer_loop blocks' x embedding_dim mlp_dim num_heads dim_coefficient
        attention_dropout projection_dropout attention_type
  end.

(** [range(n)] has [n] elements, none when [n] is negative. *)
Definition transformer_blocks (num_transformer_blocks : Z) (x : KerasTensor)
    (embedding_dim mlp_dim num_heads dim_coefficient : Z)
    (attention_dropout projection_dropout : Q) (attention_type : string)
    : M KerasTensor :=
  transformer_loop (Z.to_nat num_transformer_blocks) x embedding_dim mlp_dim
    num_heads dim_coefficient attention_dropout projection_dropout attention_type.

Definition num_transformer_blocks : Z := 8.

(** A graph is in construction order when every node is called on tensors
    of nodes that come before it. *)
Fixpoint ordered_from (i : nat) (g : graph) : bool :=
  match g with
  | [] => true
  | n :: g' => forallb (fun j => Nat.ltb j i) (inbound n) && ordered_from (S i) g'
  end.

Definition ordered (g : graph) : bool := ordered_from 0 g.

(** A tensor of the graph: some node of the graph produces it. *)
Definition live (g : graph) (x : KerasTensor) : Prop := (tid x < length g)%nat.

(** What a run of [m] on [g] does to the graph: it appends at most [k]
    nodes, keeps the construction order, and a returned value satisfies
    [post] on the new graph. *)
Definition appends {A} (k : nat) (post : A -> graph -> Prop) (m : M A) (g : graph)
    : Prop :=
  exists new,
    snd (m g) = g ++ new
    /\ (length new <= k)%nat
    /\ ordered (g ++ new) = true
    /\ forall a, fst (m g) = inr a -> post a (g ++ new).

(** Number of nodes that one call of [transformer_encoder] adds when it
    returns: 1 + 14 + 7 with external attention, 1 + 1 + 7 with
    self-attention, 1 + 7 otherwise. *)
Definition nodes_per_block (attention_type : string) : nat :=
  if String.eqb attention_type "external_attention" then 22
  else if String.eqb attention_type "self_attention" then 9
  else 8.

End Blocks.

(** ** Whole tiles of an image *)

Module Tiles.

Import Eager.
Local Open Scope nat_scope.

Section Crop.

Context {A : Type} (zero : A).

(** Position in the buffer of an h x w image batch of element [idx] of
    its top-left h' x w' corner. *)
Definition crop_source (h w h' w' c idx : nat) : nat :=
  let ch := idx mod c in
  let t1 := idx / c in
  let x := t1 mod w' in
  let t2 := t1 / w' in
  let y := t2 mod h' in
  let n := t2 / h' in
  ((n * h + y) * w + x) * c + ch.

(** [images[:, :rows * p, :cols * p, :]]: the part of the images that
    whole p x p tiles cover, [rows] and [cols] being the numbers of whole
    tiles. *)
Definition crop (p : nat) (images : tensor A) : tensor A :=
  match shape images with
  | [b; h; w; c] =>
      let rows := h / p in
      let cols := w / p in
      let out_shape := [b; rows * p; cols * p; c] in
      {| shape := out_shape;
         data := map (fun idx => nth (crop_source h w (rows * p) (cols * p) c idx)
                                     (data images) zero)
                     (seq 0 (size out_shape)) |}
  | _ => images
  end.

End Crop.

End Tiles.

(** ** The patch embedding layer *)

Module Embedding.

Import Keras.
Local Open Scope Z_scope.

(** [tf.range(start, limit, delta)] on integers: the values
    start, start + delta, ... that lie before [limit]. *)
Definition tf_range (start limit delta : Z) : exn + list Z :=
  if delta =? 0 then inl InvalidArgumentError
  else
    let count :=
      if 0 <? delta then (limit - start + delta - 1) / delta
      else (start - limit - delta - 1) / (- delta) in
    inr (map (fun i => start + Z.of_nat i * delta) (seq 0 (Z.to_nat count))).

(** [layers.Embedding(input_dim, output_dim)] called on indices of shape
    [s]: both sizes must be positive; every index is replaced by a row of
    [output_dim] numbers. *)
Definition embedding_shape (input_dim output_dim : Z) (s : shape) : exn + shape :=
  if (input_dim <=? 0) || (output_dim <=? 0) then inl ValueError
  else inr (s ++ [Some output_dim]).

(** [PatchEmbedding(num_patch, embed_dim).call]'s position indices:
      pos = tf.range(start=0, limit=self.num_patch, delta=1) *)
Definition positions (num_patch : Z) : exn + list Z := tf_range 0 num_patch 1.

(** [PatchEmbedding(num_patch, embed_dim)(patch)] on the static shape of
    [patch]: the two sub-layers are checked when the layer is made, and
          return self.proj(patch) + self.pos_embed(pos)
    projects, looks the positions up and adds with broadcasting. *)
Definition PatchEmbedding (num_patch embed_dim : Z) (patch : shape) : exn + shape :=
  if embed_dim <? 0 then inl ValueError
  else if (num_patch <=? 0) || (embed_dim <=? 0) then inl ValueError
  else
    match positions num_patch with
    | inl e => inl e
    | inr pos =>
        match dense_shape embed_dim patch with
        | inl e => inl e
        | inr projected =>
            match embedding_shape num_patch embed_dim
                    [Some (Z.of_nat (length pos))] with
            | inl e => inl e
            | inr embedded => broadcast_shape projected embedded
            end
        end
    end.



End Embedding.

(** ** Facts about the graph-building code *)

Module KerasFacts.

Import Keras.
Local Open Scope Z_scope.
Local Open Scope keras_scope.

(** *** Running the primitives on well-formed arguments *)

Lemma bind_ok {A B} (m : M A) (f : A -> M B) g a g' :
  m g = (inr a, g') -> bind m f g = f a g'.
Proof. intros E. unfold bind. rewrite E. reflexivity. Qed.

Lemma Input_embedded :
  Input [num_patches; embedding_dim] [] = (inr embedded_patches, embedded_graph).
Proof. reflexivity. Qed.

Lemma call_ok l inputs s g :
  compute_output_shape l (map tshape inputs) = inr s ->
  call l inputs g =
    (inr {| tid := length g; tshape := s |},
     g ++ [{| op := l; inbound := map tid inputs |}]).
Proof. intros E. unfold call. rewrite E. reflexivity. Qed.

Lemma py_mod_ok a b g : b <> 0 -> py_mod a b g = (inr (a mod b), g).
Proof. intros Hb. unfold py_mod. apply Z.eqb_neq in Hb. rewrite Hb. reflexivity. Qed.

Lemma py_floordiv_ok a b g : b <> 0 -> py_floordiv a b g = (inr (a / b), g).
Proof. intros Hb. unfold py_floordiv. apply Z.eqb_neq in Hb. rewrite Hb. reflexivity. Qed.

Lemma dense_shape_ok units pre d :
  0 <= units -> pre <> [] ->
  dense_shape units (pre ++ [Some d]) = inr (pre ++ [Some units]).
Proof.
  intros Hu Hpre. unfold dense_shape.
  destruct (Z.ltb_spec units 0); [lia|].
  rewrite rev_app_distr. simpl.
  destruct (rev pre) eqn:E.
  - apply (f_equal (@rev _)) in E. rewrite rev_involutive in E. contradiction.
  - rewrite <- E, rev_involutive. reflexivity.
Qed.

(** Splitting the last axis [h * w] of a rank-3 tensor with
    [tf.reshape(x, (-1, n, h, w))]. *)
Lemma reshape_split_last b n h w :
  0 < n -> 0 < h -> 0 < w ->
  reshape_shape [-1; n; h; w] [b; Some n; Some (h * w)] =
    inr [b; Some n; Some h; Some w].
Proof.
  intros Hn Hh Hw. unfold reshape_shape. cbn [existsb filter map].
  assert (Eneg : forall z, 0 < z -> (z <? -1) = false /\ (z =? -1) = false).
  { intros z Hz. split; [apply Z.ltb_ge | apply Z.eqb_neq]; lia. }
  destruct (Eneg n Hn) as [-> ->], (Eneg h Hh) as [-> ->], (Eneg w Hw) as [-> ->].
  change (-1 <? -1) with false. change (-1 =? -1) with true.
  cbn - [Z.mul Z.div Z.modulo Z.eqb].
  assert (Hp : 0 < n * (h * (w * 1))) by nia.
  destruct b as [B|]; cbn - [Z.mul Z.div Z.modulo Z.eqb]; [|reflexivity].
  replace (B * (n * (h * w * 1))) with (B * (n * (h * (w * 1)))) by ring.
  destruct (Z.eqb_spec (n * (h * (w * 1))) 0); [lia|].
  rewrite Z.mod_mul, Z.div_mul by lia. reflexivity.
Qed.

(** Merging the last two axes of a rank-4 tensor with
    [tf.reshape(x, (-1, n, m))]. *)
Lemma reshape_merge_last b n h w m :
  0 < n -> 0 < m -> m = h * w ->
  reshape_shape [-1; n; m] [b; Some n; Some h; Some w] =
    inr [b; Some n; Some m].
Proof.
  intros Hn Hm ->. unfold reshape_shape. cbn [existsb filter map].
  assert (Eneg : forall z, 0 < z -> (z <? -1) = false /\ (z =? -1) = false).
  { intros z Hz. split; [apply Z.ltb_ge | apply Z.eqb_neq]; lia. }
  destruct (Eneg n Hn) as [-> ->], (Eneg _ Hm) as [-> ->].
  change (-1 <? -1) with false. change (-1 =? -1) with true.
  cbn - [Z.mul Z.div Z.modulo Z.eqb].
  assert (Hp : 0 < n * (h * w * 1)) by nia.
  destruct b as [B|]; cbn - [Z.mul Z.div Z.modulo Z.eqb]; [|reflexivity].
  replace (B * (n * (h * (w * 1)))) with (B * (n * (h * w * 1))) by ring.
  destruct (Z.eqb_spec (n * (h * w * 1)) 0); [lia|].
  rewrite Z.mod_mul, Z.div_mul by lia. reflexivity.
Qed.

Lemma broadcast_dim_refl d : broadcast_dim d d = inr d.
Proof.
  destruct d as [i|]; cbn; [|reflexivity].
  destruct (Z.eqb_spec i 1); [reflexivity|].
  rewrite Z.eqb_refl. reflexivity.
Qed.

Lemma broadcast_dim_one i : broadcast_dim (Some i) (Some 1) = inr (Some i).
Proof. cbn. destruct (Z.eqb_spec i 1); subst; reflexivity. Qed.

Lemma merge_dim_refl i : merge_dim (Some i) (Some i) = inr (Some i).
Proof.
  cbn. destruct (Z.eqb_spec i 1); [reflexivity|].
  rewrite Z.eqb_refl. reflexivity.
Qed.

(** [layers.add] of two tensors of one rank-3 shape. *)
Lemma add_shape_same b n d :
  add_shape [b; Some n; Some d] [b; Some n; Some d] = inr [b; Some n; Some d].
Proof.
  unfold add_shape. cbn [rev app merge_aligned].
  rewrite !merge_dim_refl. cbn [rev app].
  destruct b as [B|]; [rewrite Z.eqb_refl|]; reflexivity.
Qed.

(** [tf.transpose(x, perm=[0, 2, 1, 3])] swaps the two middle axes. *)
Lemma transpose_0213 (a b c d : dim) :
  transpose_shape [0; 2; 1; 3]%nat [a; b; c; d] = inr [a; c; b; d].
Proof. reflexivity. Qed.

Lemma reduce_sum_last_keepdims (a b c d : dim) :
  reduce_sum_shape (-1) true [a; b; c; d] = inr [a; b; c; Some 1].
Proof. reflexivity. Qed.

Lemma softmax_axis2_rank4 (a b c d : dim) :
  compute_output_shape (Softmax 2) [[a; b; c; d]] = inr [a; b; c; d].
Proof. reflexivity. Qed.

(** Dividing a rank-4 tensor by its sum over the last axis. *)
Lemma broadcast_last_one b h n w :
  broadcast_shape [b; Some h; Some n; Some w] [b; Some h; Some n; Some 1] =
    inr [b; Some h; Some n; Some w].
Proof.
  unfold broadcast_shape. cbn [rev app broadcast_aligned].
  rewrite broadcast_dim_one, !broadcast_dim_refl. reflexivity.
Qed.

(** One step of a run: the head of a [bind] returns normally. *)
Ltac run_step lem :=
  erewrite bind_ok; [| solve [lem]].

Ltac run_call shp :=
  erewrite bind_ok; [| apply call_ok; cbn [map tshape compute_output_shape]; solve [shp]].

(** The full run of [external_attention] on a rank-3 tensor with defined
    patch and channel dimensions: the tensor returned, and the fourteen
    nodes added to the graph. *)
Lemma external_attention_run x b N c d H k ad pd g :
  tshape x = [b; Some N; Some c] ->
  0 < N -> 0 < d -> 0 < H -> 0 < k -> d mod H = 0 ->
  valid_rate ad = true -> valid_rate pd = true ->
  external_attention x d H k ad pd g =
    (inr {| tid := length g + 13; tshape := [b; Some N; Some d] |},
     g ++ [ {| op := Dense (d * k) linear; inbound := [tid x] |};
            {| op := TFReshape [-1; N; H * k; d / H]; inbound := [length g] |};
            {| op := TFTranspose [0; 2; 1; 3]%nat; inbound := [length g + 1]%nat |};
            {| op := Dense (d / k) linear; inbound := [length g + 2]%nat |};
            {| op := Softmax 2; inbound := [length g + 3]%nat |};
            {| op := TFReduceSum (-1) true; inbound := [length g + 4]%nat |};
            {| op := TFAddScalar eps_1e_9; inbound := [length g + 5]%nat |};
            {| op := TFDivide; inbound := [length g + 4; length g + 6]%nat |};
            {| op := Dropout ad; inbound := [length g + 7]%nat |};
            {| op := Dense (d / H) linear; inbound := [length g + 8]%nat |};
            {| op := TFTranspose [0; 2; 1; 3]%nat; inbound := [length g + 9]%nat |};
            {| op := TFReshape [-1; N; d * k]; inbound := [length g + 10]%nat |};
            {| op := Dense d linear; inbound := [length g + 11]%nat |};
            {| op := Dropout pd; inbound := [length g + 12]%nat |} ]).
Proof.
  intros Hx HN Hd HH Hk Hmod Had Hpd.
  assert (Hw : d * k / (H * k) = d / H) by (apply Z.div_mul_cancel_r; lia).
  assert (HdH : d = H * (d / H)) by (apply Z.div_exact; lia).
  assert (Hq : 0 < d / H) by nia.
  assert (Hdk : d * k = H * k * (d / H)) by nia.
  assert (Hu : 0 <= d / k) by (apply Z.div_pos; lia).
  destruct x as [xid xs]. cbn [tshape tid] in *. subst xs.
  unfold external_attention. cbn [tshape].
  run_step ltac:(reflexivity). cbn [fst].
  run_step ltac:(apply py_mod_ok; lia).
  rewrite Hmod. run_step ltac:(reflexivity).
  run_call ltac:(apply (dense_shape_ok _ [b; Some N]); [nia | discriminate]).
  run_step ltac:(apply py_floordiv_ok; nia).
  rewrite Hw. run_step ltac:(reflexivity).
  run_call ltac:(rewrite Hdk; apply reshape_split_last; nia).
  run_call ltac:(apply transpose_0213).
  run_step ltac:(apply py_floordiv_ok; lia).
  run_call ltac:(apply (dense_shape_ok _ [b; Some (H * k); Some N]); [lia | discriminate]).
  run_call ltac:(apply softmax_axis2_rank4).
  run_call ltac:(apply reduce_sum_last_keepdims).
  run_call ltac:(reflexivity).
  run_call ltac:(apply broadcast_last_one).
  run_call ltac:(rewrite Had; reflexivity).
  run_step ltac:(apply py_floordiv_ok; nia).
  rewrite Hw.
  run_call ltac:(apply (dense_shape_ok _ [b; Some (H * k); Some N]); [lia | discriminate]).
  run_call ltac:(apply transpose_0213).
  run_call ltac:(apply (reshape_merge_last b N (H * k) (d / H)); nia).
  run_call ltac:(apply (dense_shape_ok _ [b; Some N]); [lia | discriminate]).
  run_call ltac:(rewrite Hpd; reflexivity).
  unfold ret. cbn [map tid app].
  repeat rewrite <- app_assoc. cbn [app].
  repeat rewrite length_app. cbn [length].
  repeat rewrite <- Nat.add_assoc. cbn [Nat.add].
  reflexivity.
Qed.

(** The assertion is reached before any layer is created. *)
Lemma external_attention_assertion x b N c d H k ad pd g :
  tshape x = [b; N; c] -> H <> 0 -> d mod H <> 0 ->
  external_attention x d H k ad pd g = (inl AssertionError, g).
Proof.
  intros Hx HH Hmod. unfold external_attention. rewrite Hx.
  run_step ltac:(reflexivity).
  run_step ltac:(apply py_mod_ok; assumption).
  apply Z.eqb_neq in Hmod. rewrite Hmod. reflexivity.
Qed.

(** The run of [mlp] on a rank-3 tensor. *)
Lemma mlp_run x b N c d m g :
  tshape x = [b; Some N; Some c] -> 0 <= d -> 0 <= m ->
  mlp x d m mlp_drop_rate g =
    (inr {| tid := length g + 3; tshape := [b; Some N; Some d] |},
     g ++ [ {| op := Dense m gelu; inbound := [tid x] |};
            {| op := Dropout mlp_drop_rate; inbound := [length g] |};
            {| op := Dense d linear; inbound := [length g + 1]%nat |};
            {| op := Dropout mlp_drop_rate; inbound := [length g + 2]%nat |} ]).
Proof.
  intros Hx Hd Hm.
  destruct x as [xid xs]. cbn [tshape tid] in *. subst xs.
  unfold mlp.
  run_call ltac:(apply (dense_shape_ok _ [b; Some N]); [lia | discriminate]).
  run_call ltac:(reflexivity).
  run_call ltac:(apply (dense_shape_ok _ [b; Some N]); [lia | discriminate]).
  run_call ltac:(reflexivity).
  unfold ret. cbn [map tid app].
  repeat rewrite <- app_assoc. cbn [app].
  repeat rewrite length_app. cbn [length].
  repeat rewrite <- Nat.add_assoc. cbn [Nat.add].
  reflexivity.
Qed.

(** The second half of [transformer_encoder], from the first residual
    addition on, given the tensor [a] that the attention stage returned. *)
Lemma transformer_encoder_tail a x b N d m g :
  tshape a = [b; Some N; Some d] -> tshape x = [b; Some N; Some d] ->
  0 <= d -> 0 <= m ->
  (x1 <- call Add [a; x] ;;
   x2 <- call (LayerNormalization eps_1e_5) [x1] ;;
   x3 <- mlp x2 d m mlp_drop_rate ;;
   x4 <- call Add [x3; x1] ;;
   ret x4) g =
    (inr {| tid := length g + 6; tshape := [b; Some N; Some d] |},
     g ++ [ {| op := Add; inbound := [tid a; tid x] |};
            {| op := LayerNormalization eps_1e_5; inbound := [length g] |};
            {| op := Dense m gelu; inbound := [length g + 1]%nat |};
            {| op := Dropout mlp_drop_rate; inbound := [length g + 2]%nat |};
            {| op := Dense d linear; inbound := [length g + 3]%nat |};
            {| op := Dropout mlp_drop_rate; inbound := [length g + 4]%nat |};
            {| op := Add; inbound := [length g + 5; length g]%nat |} ]).
Proof.
  intros Ha Hx Hd Hm.
  destruct x as [xid xs], a as [aid ash]. cbn [tshape tid] in *. subst xs ash.
  run_call ltac:(apply add_shape_same).
  run_call ltac:(reflexivity).
  run_step ltac:(apply (mlp_run _ b N d d m); [reflexivity | lia | lia]).
  run_call ltac:(apply add_shape_same).
  unfold ret. cbn [map tid app].
  repeat rewrite <- app_assoc. cbn [app].
  repeat rewrite length_app. cbn [length].
  repeat rewrite <- Nat.add_assoc. cbn [Nat.add].
  reflexivity.
Qed.

(** *** Shape of the external-attention transform *)

(** C1. On an input of shape (N, d) (behind any batch dimension), with
    positive N, d, head count H and dimension coefficient k, d divisible by
    H, and dropout rates in [0, 1), [external_attention] returns normally a
    tensor of the shape of its input. *)
Theorem external_attention_preserves_shape x b N d H k ad pd g :
  tshape x = [b; Some N; Some d] ->
  0 < N -> 0 < d -> 0 < H -> 0 < k -> d mod H = 0 ->
  valid_rate ad = true -> valid_rate pd = true ->
  exists y g',
    external_attention x d H k ad pd g = (inr y, g') /\ tshape y = tshape x.
Proof.
  intros Hx HN Hd HH Hk Hmod Had Hpd.
  eexists. eexists. split.
  - apply (external_attention_run x b N d d H k ad pd g); assumption.
  - cbn [tshape]. symmetry. exact Hx.
Qed.

Lemma external_attention_preserves_shape_witness :
  exists y g',
    external_attention embedded_patches embedding_dim num_heads dim_coefficient
      attention_dropout projection_dropout embedded_graph = (inr y, g')
    /\ tshape y = tshape embedded_patches.
Proof.
  apply (external_attention_preserves_shape embedded_patches None 256 64 4 4);
    [reflexivity | lia | lia | lia | lia | reflexivity | reflexivity | reflexivity].
Defined.

(** *** Width of the second shared linear map *)

(** C2 as stated: the Dense layer applied to the output of the attention
    dropout would have (d * k) / H units, H being the caller's head count.
    With d = 64, k = 4, H = 4 the layer has 16 units, not 64. *)
Lemma M_v_width_not_dk_over_H :
  let run :=
    external_attention embedded_patches 64 4 4 (2 # 10) (2 # 10) embedded_graph in
  nth_error (snd run) 9 = Some {| op := Dropout (2 # 10); inbound := [8%nat] |}
  /\ nth_error (snd run) 10 = Some {| op := Dense 16 linear; inbound := [9%nat] |}
  /\ nth_error (snd run) 10 <>
       Some {| op := Dense (64 * 4 / 4) linear; inbound := [9%nat] |}.
Proof.
  vm_compute. split; [reflexivity|]. split; [reflexivity|]. discriminate.
Qed.

(** C2, amended.  The Dense layer M_v is the layer called on the output of
    the attention dropout; its width is (d * k) / (H * k), the rebound
    [num_heads] being H * k, that is d / H. *)
Theorem M_v_width x b N c d H k ad pd g :
  tshape x = [b; Some N; Some c] ->
  0 < N -> 0 < d -> 0 < H -> 0 < k -> d mod H = 0 ->
  valid_rate ad = true -> valid_rate pd = true ->
  exists y g',
    external_attention x d H k ad pd g = (inr y, g')
    /\ nth_error g' (length g + 8) =
         Some {| op := Dropout ad; inbound := [length g + 7]%nat |}
    /\ nth_error g' (length g + 9) =
         Some {| op := Dense (d * k / (H * k)) linear;
                 inbound := [length g + 8]%nat |}
    /\ d * k / (H * k) = d / H.
Proof.
  intros Hx HN Hd HH Hk Hmod Had Hpd.
  assert (Hw : d * k / (H * k) = d / H) by (apply Z.div_mul_cancel_r; lia).
  eexists. eexists. split.
  - apply (external_attention_run x b N c d H k ad pd g); assumption.
  - rewrite Hw. repeat split.
    + rewrite nth_error_app2 by lia.
      replace (length g + 8 - length g)%nat with 8%nat by lia. reflexivity.
    + rewrite nth_error_app2 by lia.
      replace (length g + 9 - length g)%nat with 9%nat by lia. reflexivity.
Qed.

Lemma M_v_width_witness :
  exists y g',
    external_attention embedded_patches 64 4 4 (2 # 10) (2 # 10) embedded_graph
      = (inr y, g')
    /\ nth_error g' (length embedded_graph + 8) =
         Some {| op := Dropout (2 # 10); inbound := [length embedded_graph + 7]%nat |}
    /\ nth_error g' (length embedded_graph + 9) =
         Some {| op := Dense (64 * 4 / (4 * 4)) linear;
                 inbound := [length embedded_graph + 8]%nat |}
    /\ 64 * 4 / (4 * 4) = 64 / 4.
Proof.
  apply (M_v_width embedded_patches None 256 64 64 4 4);
    [reflexivity | lia | lia | lia | lia | reflexivity | reflexivity | reflexivity].
Defined.

(** *** The divisibility assertion *)

(** C7. For positive sizes and valid dropout rates, [external_attention]
    raises [AssertionError] exactly when [dim] is not divisible by
    [num_heads], and it does so before any layer is added to the graph;
    when [dim] is divisible it returns a tensor.  With 64 and 4 it
    returns; with 65 and 4 it raises. *)
Theorem external_attention_fails_iff_not_divisible x b N c d H k ad pd g :
  tshape x = [b; Some N; Some c] ->
  0 < N -> 0 < d -> 0 < H -> 0 < k ->
  valid_rate ad = true -> valid_rate pd = true ->
  (d mod H <> 0 <->
     external_attention x d H k ad pd g = (inl AssertionError, g))
  /\ (d mod H = 0 <->
      exists y g', external_attention x d H k ad pd g = (inr y, g'))
  /\ (exists y g',
        external_attention x 64 4 k ad pd g = (inr y, g'))
  /\ external_attention x 65 4 k ad pd g = (inl AssertionError, g).
Proof.
  intros Hx HN Hd HH Hk Had Hpd.
  assert (Hfail : d mod H <> 0 ->
            external_attention x d H k ad pd g = (inl AssertionError, g)).
  { apply (external_attention_assertion x b (Some N) (Some c)); [assumption | lia]. }
  assert (Hok : d mod H = 0 ->
            exists y g', external_attention x d H k ad pd g = (inr y, g')).
  { intros Hmod. eexists. eexists.
    apply (external_attention_run x b N c d H k ad pd g); assumption. }
  split; [|split; [|split]].
  - split; [exact Hfail|].
    intros E Hmod. destruct (Hok Hmod) as (y & g' & E').
    rewrite E in E'. discriminate.
  - split; [exact Hok|].
    intros (y & g' & E). destruct (Z.eq_dec (d mod H) 0) as [|Hne]; [assumption|].
    rewrite (Hfail Hne) in E. discriminate.
  - eexists. eexists.
    apply (external_attention_run x b N c 64 4 k ad pd g);
      [assumption | lia | lia | lia | lia | reflexivity | assumption | assumption].
  - apply (external_attention_assertion x b (Some N) (Some c));
      [assumption | lia | discriminate].
Qed.

Lemma external_attention_fails_iff_not_divisible_witness :
  (65 mod 4 <> 0 <->
     external_attention embedded_patches 65 4 4 (2 # 10) (2 # 10) embedded_graph
       = (inl AssertionError, embedded_graph))
  /\ (65 mod 4 = 0 <->
      exists y g',
        external_attention embedded_patches 65 4 4 (2 # 10) (2 # 10) embedded_graph
          = (inr y, g'))
  /\ (exists y g',
        external_attention embedded_patches 64 4 4 (2 # 10) (2 # 10) embedded_graph
          = (inr y, g'))
  /\ external_attention embedded_patches 65 4 4 (2 # 10) (2 # 10) embedded_graph
       = (inl AssertionError, embedded_graph).
Proof.
  apply (external_attention_fails_iff_not_divisible embedded_patches None 256 64);
    [reflexivity | lia | lia | lia | lia | reflexivity | reflexivity].
Defined.

(** *** The transformer block *)

(** C8 as stated: with [embedding_dim] = 65 and [num_heads] = 4 the
    block raises [AssertionError] on a sequence of shape (256, 65) when
    [attention_type] is "external_attention", and returns a tensor of
    that shape when it is "self_attention". *)
Lemma transformer_encoder_external_attention_65_4 :
  tshape patches_65 = [None; Some 256; Some 65]
  /\ fst (transformer_encoder patches_65 65 mlp_dim 4 dim_coefficient
            attention_dropout projection_dropout "external_attention" graph_65)
     = inl AssertionError
  /\ (exists y g',
        transformer_encoder patches_65 65 mlp_dim 4 dim_coefficient
          attention_dropout projection_dropout "self_attention" graph_65
        = (inr y, g')
        /\ tshape y = [None; Some 256; Some 65]).
Proof.
  split; [reflexivity|]. split; [vm_compute; reflexivity|].
  eexists. eexists. split; vm_compute; reflexivity.
Qed.

(** C8, amended.  On an input of shape (N, embedding_dim), with valid
    sizes and attention dropout rate:
    - with "self_attention" [transformer_encoder] returns a tensor of
      the shape of its input, whatever [dim_coefficient] and
      [projection_dropout] are and whether or not [num_heads] divides
      [embedding_dim];
    - with "external_attention" it returns a tensor of the shape of its
      input when [num_heads] divides [embedding_dim] (and
      [dim_coefficient] and [projection_dropout] are valid);
    - with "external_attention" it raises [AssertionError] when
      [num_heads] does not divide [embedding_dim]. *)
Theorem transformer_encoder_shape_by_variant x b N d m H k ad pd g :
  tshape x = [b; Some N; Some d] ->
  0 < N -> 0 < d -> 0 <= m -> 0 < H ->
  valid_rate ad = true ->
  (exists y g',
     transformer_encoder x d m H k ad pd "self_attention" g = (inr y, g')
     /\ tshape y = tshape x)
  /\ (0 < k -> valid_rate pd = true -> d mod H = 0 ->
      exists y g',
        transformer_encoder x d m H k ad pd "external_attention" g = (inr y, g')
        /\ tshape y = tshape x)
  /\ (d mod H <> 0 ->
      fst (transformer_encoder x d m H k ad pd "external_attention" g)
        = inl AssertionError).
Proof.
  intros Hx HN Hd Hm HH Had.
  destruct x as [xid xs]. cbn [tshape] in *. subst xs.
  split; [|split].
  - unfold transformer_encoder.
    run_call ltac:(reflexivity).
    change ("self_attention" =? "external_attention")%string with false.
    rewrite String.eqb_refl.
    run_call ltac:(cbn [map tshape compute_output_shape]; rewrite Had; reflexivity).
    eexists. eexists. split.
    + apply (transformer_encoder_tail _ _ b N d m); solve [reflexivity | lia].
    + reflexivity.
  - intros Hk Hpd Hmod. unfold transformer_encoder.
    run_call ltac:(reflexivity).
    rewrite String.eqb_refl.
    run_step ltac:(apply (external_attention_run _ b N d d H k ad pd);
                   solve [reflexivity | assumption]).
    eexists. eexists. split.
    + apply (transformer_encoder_tail _ _ b N d m); solve [reflexivity | lia].
    + reflexivity.
  - intros Hmod. unfold transformer_encoder.
    run_call ltac:(reflexivity).
    rewrite String.eqb_refl.
    unfold bind at 1.
    rewrite (external_attention_assertion _ b (Some N) (Some d) d H k ad pd)
      by solve [reflexivity | assumption | lia].
    reflexivity.
Qed.

(** The end-to-end scenario of the notebook: [num_patches] = 256 patches
    of width 64 through one block, with the notebook's hyperparameters,
    under both variants; and the block on patches of width 65. *)
Lemma transformer_encoder_shape_by_variant_witness :
  ((exists y g',
      transformer_encoder embedded_patches embedding_dim mlp_dim num_heads
        dim_coefficient attention_dropout projection_dropout "self_attention"
        embedded_graph = (inr y, g')
      /\ tshape y = tshape embedded_patches)
   /\ (0 < dim_coefficient -> valid_rate projection_dropout = true ->
       embedding_dim mod num_heads = 0 ->
       exists y g',
         transformer_encoder embedded_patches embedding_dim mlp_dim num_heads
           dim_coefficient attention_dropout projection_dropout
           "external_attention" embedded_graph = (inr y, g')
         /\ tshape y = tshape embedded_patches)
   /\ (embedding_dim mod num_heads <> 0 ->
       fst (transformer_encoder embedded_patches embedding_dim mlp_dim num_heads
              dim_coefficient attention_dropout projection_dropout
              "external_attention" embedded_graph)
         = inl AssertionError))
  /\ tshape embedded_patches = [None; Some 256; Some 64].
Proof.
  split; [|reflexivity].
  apply (transformer_encoder_shape_by_variant embedded_patches None 256 64 64 4 4);
    [reflexivity | lia | lia | lia | lia | reflexivity].
Defined.

(** C10. With any other [attention_type], [transformer_encoder] raises
    nothing and adds no attention layer: the first residual addition takes
    the layer-normalised input and the input itself, the normalised MLP
    sub-block follows, and the result has the shape of the input.  The
    head count, the dimension coefficient and the two attention dropout
    rates are not looked at. *)
Theorem transformer_encoder_other_attention_type
    x b N d m H k ad pd attention_type g :
  tshape x = [b; Some N; Some d] ->
  0 <= d -> 0 <= m ->
  (attention_type =? "external_attention")%string = false ->
  (attention_type =? "self_attention")%string = false ->
  transformer_encoder x d m H k ad pd attention_type g =
    (inr {| tid := length g + 7; tshape := tshape x |},
     g ++ [ {| op := LayerNormalization eps_1e_5; inbound := [tid x] |};
            {| op := Add; inbound := [length g; tid x] |};
            {| op := LayerNormalization eps_1e_5; inbound := [length g + 1]%nat |};
            {| op := Dense m gelu; inbound := [length g + 2]%nat |};
            {| op := Dropout mlp_drop_rate; inbound := [length g + 3]%nat |};
            {| op := Dense d linear; inbound := [length g + 4]%nat |};
            {| op := Dropout mlp_drop_rate; inbound := [length g + 5]%nat |};
            {| op := Add; inbound := [length g + 6; length g + 1]%nat |} ]).
Proof.
  intros Hx Hd Hm Hea Hsa.
  destruct x as [xid xs]. cbn [tshape tid] in *. subst xs.
  unfold transformer_encoder.
  run_call ltac:(reflexivity).
  rewrite Hea, Hsa.
  run_step ltac:(reflexivity).
  rewrite (transformer_encoder_tail _ _ b N d m) by solve [reflexivity | lia].
  cbn [tid].
  repeat rewrite <- app_assoc. cbn [app].
  repeat rewrite length_app. cbn [length].
  repeat rewrite <- Nat.add_assoc. cbn [Nat.add].
  reflexivity.
Qed.

Lemma transformer_encoder_other_attention_type_witness :
  transformer_encoder embedded_patches 64 64 0 0 (5 # 1) (5 # 1) "attention"
    embedded_graph =
    (inr {| tid := 8; tshape := [None; Some 256; Some 64] |},
     embedded_graph ++
       [ {| op := LayerNormalization eps_1e_5; inbound := [0%nat] |};
         {| op := Add; inbound := [1; 0]%nat |};
         {| op := LayerNormalization eps_1e_5; inbound := [2%nat] |};
         {| op := Dense 64 gelu; inbound := [3%nat] |};
         {| op := Dropout mlp_drop_rate; inbound := [4%nat] |};
         {| op := Dense 64 linear; inbound := [5%nat] |};
         {| op := Dropout mlp_drop_rate; inbound := [6%nat] |};
         {| op := Add; inbound := [7; 2]%nat |} ]).
Proof.
  apply (transformer_encoder_other_attention_type
           embedded_patches None 256 64 64 0 0 (5 # 1) (5 # 1) "attention"
           embedded_graph);
    [reflexivity | lia | lia | reflexivity | reflexivity].
Defined.

End KerasFacts.

(** ** Facts about patch extraction *)

Module EagerFacts.

Import Eager.
Local Open Scope nat_scope.

(** *** Mixed-radix arithmetic *)

Lemma digit_div a n r : r < n -> (a * n + r) / n = a.
Proof.
  intros Hr. symmetry. apply (Nat.div_unique _ n a r); lia.
Qed.

Lemma digit_mod a n r : r < n -> (a * n + r) mod n = r.
Proof.
  intros Hr. symmetry. apply (Nat.mod_unique _ n a r); lia.
Qed.

(** Every index below [a * n] is a digit below [n] under a prefix below [a]. *)
Lemma split_index a n i :
  i < a * n -> exists q r, i = q * n + r /\ q < a /\ r < n.
Proof.
  intros Hi.
  assert (Hn : n <> 0) by (intros ->; lia).
  exists (i / n), (i mod n).
  pose proof (Nat.div_mod_eq i n) as E.
  pose proof (Nat.mod_upper_bound i n Hn) as Hr.
  repeat split; [lia | | assumption].
  apply Nat.Div0.div_lt_upper_bound. lia.
Qed.

(** *** Lists read through an index map *)

Lemma nth_map_seq {B} (f : nat -> B) n k d :
  k < n -> nth k (map f (seq 0 n)) d = f k.
Proof.
  intros Hk.
  rewrite (nth_indep _ d (f 0)) by (rewrite length_map, length_seq; exact Hk).
  rewrite (map_nth f (seq 0 n) 0 k), seq_nth by exact Hk. reflexivity.
Qed.

Lemma map_nth_all {B} (l : list B) d :
  map (fun i => nth i l d) (seq 0 (length l)) = l.
Proof.
  apply (nth_ext _ _ d d).
  - rewrite length_map, length_seq. reflexivity.
  - intros k Hk. rewrite length_map, length_seq in Hk.
    exact (nth_map_seq (fun i => nth i l d) _ k d Hk).
Qed.

Lemma map_seq_ext {B} (f h : nat -> B) n :
  (forall k, k < n -> f k = h k) -> map f (seq 0 n) = map h (seq 0 n).
Proof.
  intros E. apply map_ext_in. intros k Hk. apply in_seq in Hk. apply E. lia.
Qed.

(** *** The two index maps are inverse on a tiled image *)

Section Tiling.

Variables p rows cols c : nat.


Lemma patch_source_index n yq yr xq xr ch :
  yq < rows -> yr < p -> xq < cols -> xr < p -> ch < c ->
  patch_source p (rows * p) (cols * p) c rows cols (patch_index p rows cols c n yq yr xq xr ch)
    = image_index p rows cols c n yq yr xq xr ch.
Proof.
  intros Hyq Hyr Hxq Hxr Hch.
  unfold patch_source, patch_index, image_index. cbv zeta.
  replace (((n * rows + yq) * cols + xq) * (p * p * c) + ((yr * p + xr) * c + ch))
    with (((((n * rows + yq) * cols + xq) * p + yr) * p + xr) * c + ch) by ring.
  rewrite (digit_mod _ c ch Hch), (digit_div _ c ch Hch).
  rewrite (digit_mod _ p xr Hxr), (digit_div _ p xr Hxr).
  rewrite (digit_mod _ p yr Hyr), (digit_div _ p yr Hyr).
  rewrite (digit_mod _ cols xq Hxq), (digit_div _ cols xq Hxq).
  rewrite (digit_mod _ rows yq Hyq), (digit_div _ rows yq Hyq).
  reflexivity.
Qed.

Lemma pixel_source_index n yq yr xq xr ch :
  yq < rows -> yr < p -> xq < cols -> xr < p -> ch < c ->
  pixel_source p rows cols c (image_index p rows cols c n yq yr xq xr ch)
    = patch_index p rows cols c n yq yr xq xr ch.
Proof.
  intros Hyq Hyr Hxq Hxr Hch.
  assert (Hy : yq * p + yr < rows * p) by nia.
  assert (Hx : xq * p + xr < cols * p) by nia.
  unfold pixel_source, patch_index, image_index. cbv zeta.
  rewrite (digit_mod _ c ch Hch), (digit_div _ c ch Hch).
  rewrite (digit_mod _ (cols * p) _ Hx), (digit_div _ (cols * p) _ Hx).
  rewrite (digit_mod _ (rows * p) _ Hy), (digit_div _ (rows * p) _ Hy).
  rewrite (digit_mod _ p xr Hxr), (digit_div _ p xr Hxr).
  rewrite (digit_mod _ p yr Hyr), (digit_div _ p yr Hyr).
  ring.
Qed.

Lemma image_index_digits b idx :
  idx < b * (rows * p) * (cols * p) * c ->
  exists n yq yr xq xr ch,
    idx = image_index p rows cols c n yq yr xq xr ch
    /\ n < b /\ yq < rows /\ yr < p /\ xq < cols /\ xr < p /\ ch < c.
Proof.
  intros Hidx.
  destruct (split_index _ _ _ Hidx) as (t1 & ch & -> & Ht1 & Hch).
  destruct (split_index _ _ _ Ht1) as (t2 & x & -> & Ht2 & Hx).
  destruct (split_index _ _ _ Ht2) as (n & y & -> & Hn & Hy).
  destruct (split_index _ _ _ Hx) as (xq & xr & -> & Hxq & Hxr).
  destruct (split_index _ _ _ Hy) as (yq & yr & -> & Hyq & Hyr).
  exists n, yq, yr, xq, xr, ch. unfold image_index. repeat split; assumption.
Qed.

Lemma patch_index_digits b k :
  k < b * rows * cols * (p * p * c) ->
  exists n yq yr xq xr ch,
    k = patch_index p rows cols c n yq yr xq xr ch
    /\ n < b /\ yq < rows /\ yr < p /\ xq < cols /\ xr < p /\ ch < c.
Proof.
  intros Hk.
  replace (b * rows * cols * (p * p * c))
    with (b * rows * cols * p * p * c) in Hk by ring.
  destruct (split_index _ _ _ Hk) as (k1 & ch & -> & Hk1 & Hch).
  destruct (split_index _ _ _ Hk1) as (k2 & xr & -> & Hk2 & Hxr).
  destruct (split_index _ _ _ Hk2) as (k3 & yr & -> & Hk3 & Hyr).
  destruct (split_index _ _ _ Hk3) as (k4 & xq & -> & Hk4 & Hxq).
  destruct (split_index _ _ _ Hk4) as (n & yq & -> & Hn & Hyq).
  exists n, yq, yr, xq, xr, ch. unfold patch_index.
  repeat split; try assumption. ring.
Qed.

Lemma image_index_bound b n yq yr xq xr ch :
  n < b -> yq < rows -> yr < p -> xq < cols -> xr < p -> ch < c ->
  image_index p rows cols c n yq yr xq xr ch < b * (rows * p) * (cols * p) * c.
Proof.
  intros Hn Hyq Hyr Hxq Hxr Hch. unfold image_index.
  assert (Hy : yq * p + yr + 1 <= rows * p) by nia.
  assert (Hx : xq * p + xr + 1 <= cols * p) by nia.
  assert (H1 : n * (rows * p) + (yq * p + yr) + 1 <= b * (rows * p)) by nia.
  assert (H2 : (n * (rows * p) + (yq * p + yr)) * (cols * p) + (xq * p + xr) + 1
               <= b * (rows * p) * (cols * p)) by nia.
  nia.
Qed.

Lemma patch_index_bound b n yq yr xq xr ch :
  n < b -> yq < rows -> yr < p -> xq < cols -> xr < p -> ch < c ->
  patch_index p rows cols c n yq yr xq xr ch < b * rows * cols * (p * p * c).
Proof.
  intros Hn Hyq Hyr Hxq Hxr Hch. unfold patch_index.
  assert (H0 : (yr * p + xr) + 1 <= p * p) by nia.
  assert (H1 : (yr * p + xr) * c + ch + 1 <= p * p * c) by nia.
  assert (H2 : n * rows + yq + 1 <= b * rows) by nia.
  assert (H3 : (n * rows + yq) * cols + xq + 1 <= b * rows * cols) by nia.
  nia.
Qed.

End Tiling.

(** *** Extraction and reassembly *)

(** The 2 x 2 patches of a 4 x 4 image whose pixels are numbered row by
    row. *)
Example extract_patches_4x4 :
  extract_patches 0 2 {| shape := [1; 4; 4; 1]; data := seq 0 16 |} =
    inr {| shape := [1; 2; 2; 4];
           data := [0; 1; 4; 5;  2; 3; 6; 7;  8; 9; 12; 13;  10; 11; 14; 15] |}.
Proof. reflexivity. Qed.

(** On a 2 x 4 image the patches are extracted, a 1 x 2 grid. *)
Example extract_patches_2x4 :
  extract_patches 0 2 {| shape := [1; 2; 4; 1]; data := [1; 2; 3; 4; 5; 6; 7; 8] |} =
    inr {| shape := [1; 1; 2; 4]; data := [1; 2; 5; 6;  3; 4; 7; 8] |}.
Proof. reflexivity. Qed.

Section RoundTrip.

Context {A : Type} (zero : A).

Lemma extract_patches_tiled p rows cols c b (pixels : list A) :
  0 < p ->
  extract_patches zero p {| shape := [b; rows * p; cols * p; c]; data := pixels |} =
    inr {| shape := [b; rows; cols; p * p * c];
           data := map (fun k => nth (patch_source p (rows * p) (cols * p) c rows cols k)
                                     pixels zero)
                       (seq 0 (b * rows * cols * (p * p * c))) |}.
Proof.
  intros Hp. unfold extract_patches. cbn [shape data].
  destruct (Nat.eqb_spec p 0) as [|_]; [lia|].
  rewrite !Nat.div_mul by lia.
  replace (size [b; rows; cols; p * p * c]) with (b * rows * cols * (p * p * c))
    by (cbn [size fold_right]; ring).
  reflexivity.
Qed.

(** Reading the image back out of the patches buffer gives the image
    buffer, for any grid. *)
Lemma reassembled_pixels p rows cols c b (pixels : list A) :
  length pixels = b * (rows * p) * (cols * p) * c ->
  map (fun idx =>
         nth (pixel_source p rows cols c idx)
             (map (fun k => nth (patch_source p (rows * p) (cols * p) c rows cols k)
                                pixels zero)
                  (seq 0 (b * rows * cols * (p * p * c))))
             zero)
      (seq 0 (b * (rows * p) * (cols * p) * c))
  = pixels.
Proof.
  intros Hlen.
  transitivity (map (fun i => nth i pixels zero) (seq 0 (length pixels)));
    [| apply map_nth_all].
  rewrite Hlen. apply map_seq_ext. intros idx Hidx.
  destruct (image_index_digits p rows cols c b idx Hidx)
    as (n & yq & yr & xq & xr & ch & -> & Hn & Hyq & Hyr & Hxq & Hxr & Hch).
  rewrite pixel_source_index by assumption.
  rewrite nth_map_seq by (apply patch_index_bound; assumption).
  rewrite patch_source_index by assumption.
  reflexivity.
Qed.

(** Extracting the patches of a reassembled image gives the patches
    buffer back. *)
Lemma extracted_elements p rows cols c b (elems : list A) :
  length elems = b * rows * cols * (p * p * c) ->
  map (fun k =>
         nth (patch_source p (rows * p) (cols * p) c rows cols k)
             (map (fun idx => nth (pixel_source p rows cols c idx) elems zero)
                  (seq 0 (b * (rows * p) * (cols * p) * c)))
             zero)
      (seq 0 (b * rows * cols * (p * p * c)))
  = elems.
Proof.
  intros Hlen.
  transitivity (map (fun i => nth i elems zero) (seq 0 (length elems)));
    [| apply map_nth_all].
  rewrite Hlen. apply map_seq_ext. intros k Hk.
  destruct (patch_index_digits p rows cols c b k Hk)
    as (n & yq & yr & xq & xr & ch & -> & Hn & Hyq & Hyr & Hxq & Hxr & Hch).
  rewrite patch_source_index by assumption.
  rewrite nth_map_seq by (apply image_index_bound; assumption).
  rewrite pixel_source_index by assumption.
  reflexivity.
Qed.

(** The run of [PatchExtract.call] on a batch of square images. *)
Lemma PatchExtract_call_square p g c b (pixels : list A) :
  0 < p ->
  PatchExtract_call zero p {| shape := [b; g * p; g * p; c]; data := pixels |} =
    inr {| shape := [b; g * g; p * p * c];
           data := map (fun k => nth (patch_source p (g * p) (g * p) c g g k)
                                     pixels zero)
                       (seq 0 (b * g * g * (p * p * c))) |}.
Proof.
  intros Hp. unfold PatchExtract_call. cbn [shape].
  rewrite extract_patches_tiled by assumption.
  cbn [shape last nth]. unfold reshape. cbn [shape data].
  replace (size [b; g * g; p * p * c] =? size [b; g; g; p * p * c]) with true.
  - reflexivity.
  - symmetry. apply Nat.eqb_eq. cbn [size fold_right]. ring.
Qed.

(** C5, amended.  For square images whose side is a multiple of
    [patch_size], [PatchExtract] returns a patch sequence from which
    reassembly in sequence order gives the images back exactly; and every
    patch sequence of that shape is the extraction of its reassembly.  So
    extraction and reassembly are inverse bijections between batches of
    g*p x g*p images and batches of g*g patches. *)
Theorem PatchExtract_reassemble p g c b (pixels elems : list A) :
  0 < p ->
  length pixels = b * (g * p) * (g * p) * c ->
  length elems = b * g * g * (p * p * c) ->
  (exists patches,
     PatchExtract_call zero p {| shape := [b; g * p; g * p; c]; data := pixels |}
       = inr patches
     /\ reassemble zero p g g c patches
        = {| shape := [b; g * p; g * p; c]; data := pixels |})
  /\ PatchExtract_call zero p
       (reassemble zero p g g c {| shape := [b; g * g; p * p * c]; data := elems |})
     = inr {| shape := [b; g * g; p * p * c]; data := elems |}.
Proof.
  intros Hp Hpix Helems. split.
  - eexists. split; [apply PatchExtract_call_square; assumption|].
    unfold reassemble. cbn [shape data nth]. f_equal.
    replace (size [b; g * p; g * p; c]) with (b * (g * p) * (g * p) * c)
      by (cbn [size fold_right]; ring).
    apply reassembled_pixels. assumption.
  - unfold reassemble. cbn [shape data nth].
    rewrite PatchExtract_call_square by assumption. do 2 f_equal.
    replace (size [b; g * p; g * p; c]) with (b * (g * p) * (g * p) * c)
      by (cbn [size fold_right]; ring).
    apply extracted_elements. assumption.
Qed.

(** C6, amended.  For a batch of square images whose side is a multiple
    of [patch_size], [PatchExtract] returns a sequence of
    (H / patch_size) * (W / patch_size) patches, each of
    patch_size * patch_size * C elements. *)
Theorem PatchExtract_shape p h w c b (pixels : list A) :
  0 < p -> h mod p = 0 -> w mod p = 0 -> h = w ->
  exists patches,
    PatchExtract_call zero p {| shape := [b; h; w; c]; data := pixels |}
      = inr patches
    /\ shape patches = [b; (h / p) * (w / p); p * p * c]
    /\ length (data patches) = b * ((h / p) * (w / p)) * (p * p * c).
Proof.
  intros Hp Hh Hw <-.
  assert (E : h = h / p * p).
  { rewrite Nat.mul_comm. apply Nat.Div0.div_exact. assumption. }
  remember (h / p) as g eqn:Hg. clear Hg Hh Hw. subst h.
  eexists. split; [apply PatchExtract_call_square; assumption|].
  cbn [shape data]. split; [reflexivity|].
  rewrite length_map, length_seq. ring.
Qed.

End RoundTrip.

(** C5 as stated: [patch_size] = 2 divides both sides of a 2 x 4 image,
    yet [PatchExtract] raises: there is no patch sequence to reassemble. *)
Lemma PatchExtract_wide_image_raises :
  2 mod 2 = 0 /\ 4 mod 2 = 0 /\
  PatchExtract_call 0 2 {| shape := [1; 2; 4; 1]; data := [1; 2; 3; 4; 5; 6; 7; 8] |}
    = inl InvalidArgumentError.
Proof. repeat split. Qed.

(** C6 as stated: [patch_size] = 2 divides both sides of a 4 x 2 image,
    which has (4 / 2) * (2 / 2) = 2 patches, yet [PatchExtract] asks for
    (4 / 2) * (4 / 2) = 4 and raises. *)
Lemma PatchExtract_tall_image_raises :
  4 mod 2 = 0 /\ 2 mod 2 = 0 /\
  PatchExtract_call 0 2 {| shape := [1; 4; 2; 1]; data := [1; 2; 3; 4; 5; 6; 7; 8] |}
    = inl InvalidArgumentError.
Proof. repeat split. Qed.

Lemma PatchExtract_reassemble_witness :
  (exists patches,
     PatchExtract_call 0 2
       {| shape := [1; 2 * 2; 2 * 2; 1];
          data := [1; 2; 3; 4; 5; 6; 7; 8; 9; 10; 11; 12; 13; 14; 15; 16] |}
       = inr patches
     /\ reassemble 0 2 2 2 1 patches
        = {| shape := [1; 2 * 2; 2 * 2; 1];
             data := [1; 2; 3; 4; 5; 6; 7; 8; 9; 10; 11; 12; 13; 14; 15; 16] |})
  /\ PatchExtract_call 0 2
       (reassemble 0 2 2 2 1
          {| shape := [1; 2 * 2; 2 * 2 * 1];
             data := [1; 2; 5; 6; 3; 4; 7; 8; 9; 10; 13; 14; 11; 12; 15; 16] |})
     = inr {| shape := [1; 2 * 2; 2 * 2 * 1];
              data := [1; 2; 5; 6; 3; 4; 7; 8; 9; 10; 13; 14; 11; 12; 15; 16] |}.
Proof.
  apply (PatchExtract_reassemble 0 2 2 1 1); [lia | reflexivity | reflexivity].
Defined.

Lemma PatchExtract_shape_witness :
  exists patches,
    PatchExtract_call 0 2
      {| shape := [1; 4; 4; 3]; data := seq 0 48 |} = inr patches
    /\ shape patches = [1; (4 / 2) * (4 / 2); 2 * 2 * 3]
    /\ length (data patches) = 1 * ((4 / 2) * (4 / 2)) * (2 * 2 * 3).
Proof.
  apply (PatchExtract_shape 0 2 4 4 3 1); [lia | reflexivity | reflexivity | reflexivity].
Defined.

End EagerFacts.

(** ** Facts about the double normalisation *)

Module AttentionFacts.

Import Attention.
Local Open Scope R_scope.

Lemma zip_with_map_r {X Y Z} (f : X -> Y -> Z) (g : X -> Y) l :
  zip_with f l (map g l) = map (fun x => f x (g x)) l.
Proof.
  unfold zip_with. induction l as [|x l IH]; [reflexivity|].
  cbn [map combine fst snd]. f_equal. exact IH.
Qed.

(** Dividing by the shifted row sums divides each row by one number. *)
Lemma divide_by_row_sums c (a : tensor4) :
  divide a (add_scalar c (reduce_sum_last a)) =
    map (map (map (fun r => map (fun v => v / (c + total r)) r))) a.
Proof.
  unfold divide, add_scalar, reduce_sum_last.
  rewrite map_map.
  rewrite (map_ext _ (map (fun x => map (fun r : list R => [c + total r]) x))).
  2:{ intros x. rewrite map_map. apply map_ext. intros y.
      rewrite map_map. reflexivity. }
  rewrite zip_with_map_r. apply map_ext. intros x.
  rewrite zip_with_map_r. apply map_ext. intros y.
  rewrite zip_with_map_r. reflexivity.
Qed.

Lemma nth_map_default {X Y} (f : X -> Y) l n dx dy :
  f dx = dy -> nth n (map f l) dy = f (nth n l dx).
Proof. intros <-. apply map_nth. Qed.

Lemma row_map (F : list R -> list R) t b h n :
  F [] = [] -> row (map (map (map F)) t) b h n = F (row t b h n).
Proof.
  intros HF. unfold row.
  rewrite (nth_map_default (map (map F)) t b [] []) by reflexivity.
  rewrite (nth_map_default (map F) _ h [] []) by reflexivity.
  rewrite (nth_map_default F _ n [] []) by exact HF.
  reflexivity.
Qed.

(** Each row of the result is the softmax row divided by [eps] plus the
    sum of that row. *)
Lemma double_normalization_row t b h n :
  row (double_normalization t) b h n =
    map (fun v => v / (eps + total (row (Softmax_axis2 t) b h n)))
        (row (Softmax_axis2 t) b h n).
Proof.
  unfold double_normalization. cbv zeta. rewrite divide_by_row_sums.
  apply (row_map (fun r => map (fun v => v / (eps + total r)) r)).
  reflexivity.
Qed.

Lemma total_map_div c r : total (map (fun v => v / c) r) = total r / c.
Proof.
  induction r as [|v r IH]; cbn [map total fold_right].
  - unfold Rdiv. ring.
  - fold (total (map (fun v => v / c) r)). fold (total r).
    rewrite IH. unfold Rdiv. ring.
Qed.

Lemma total_nonneg r : (forall v, In v r -> 0 < v) -> 0 <= total r.
Proof.
  induction r as [|v r IH]; intros Hpos; cbn [total fold_right]; [lra|].
  fold (total r).
  assert (0 < v) by (apply Hpos; left; reflexivity).
  assert (0 <= total r) by (apply IH; intros u Hu; apply Hpos; right; exact Hu).
  lra.
Qed.

Lemma total_exp_pos {X} (f : X -> R) (m : list X) :
  m <> [] -> 0 < total (map (fun x => exp (f x)) m).
Proof.
  destruct m as [|x m]; [contradiction|]. intros _.
  cbn [map total fold_right]. fold (total (map (fun x => exp (f x)) m)).
  pose proof (exp_pos (f x)).
  assert (0 <= total (map (fun x => exp (f x)) m)).
  { apply total_nonneg. intros v Hv. apply in_map_iff in Hv.
    destruct Hv as (y & <- & _). apply exp_pos. }
  lra.
Qed.

(** Every score that the softmax produces is positive. *)
Lemma softmax_over_patches_pos m r v :
  In r (softmax_over_patches m) -> In v r -> 0 < v.
Proof.
  unfold softmax_over_patches, zip_with. intros Hr Hv.
  apply in_map_iff in Hr. destruct Hr as (r0 & <- & Hr0).
  apply in_map_iff in Hv. destruct Hv as ((j & x) & <- & _).
  cbn [fst snd]. apply Rdiv_lt_0_compat; [apply exp_pos|].
  apply (total_exp_pos (fun r' => nth j r' 0)).
  intros ->. contradiction.
Qed.

Lemma Softmax_axis2_pos t b h n v :
  In v (row (Softmax_axis2 t) b h n) -> 0 < v.
Proof.
  unfold row, Softmax_axis2.
  rewrite (nth_map_default (map softmax_over_patches) t b [] []) by reflexivity.
  rewrite (nth_map_default softmax_over_patches _ h [] []) by reflexivity.
  intros Hv.
  destruct (nth_in_or_default n (softmax_over_patches (nth h (nth b t []) [])) [])
    as [Hin | Hnil].
  - exact (softmax_over_patches_pos _ _ _ Hin Hv).
  - rewrite Hnil in Hv. contradiction.
Qed.

Lemma eps_pos : 0 < eps.
Proof. unfold eps. apply Rinv_0_lt_compat. lra. Qed.

Lemma softmax_row_total_nonneg t b h n :
  0 <= total (row (Softmax_axis2 t) b h n).
Proof. apply total_nonneg. intros v. apply Softmax_axis2_pos. Qed.

(** *** Bounds on the exponential *)

Lemma exp_1_gt_2 : 2 < exp 1.
Proof. pose proof (exp_ineq1 1). lra. Qed.

Lemma exp_double x : exp (2 * x) = exp x * exp x.
Proof. replace (2 * x) with (x + x) by ring. apply exp_plus. Qed.

Lemma exp_32_large : 1000000000 < exp 32.
Proof.
  pose proof exp_1_gt_2 as H1.
  pose proof (exp_double 1) as H2. replace (2 * 1) with 2 in H2 by ring.
  pose proof (exp_double 2) as H4. replace (2 * 2) with 4 in H4 by ring.
  pose proof (exp_double 4) as H8. replace (2 * 4) with 8 in H8 by ring.
  pose proof (exp_double 8) as H16. replace (2 * 8) with 16 in H16 by ring.
  pose proof (exp_double 16) as H32. replace (2 * 16) with 32 in H32 by ring.
  assert (4 < exp 2) by nra.
  assert (16 < exp 4) by nra.
  assert (256 < exp 8) by nra.
  assert (65536 < exp 16) by nra.
  nra.
Qed.

(** C3 as stated: with logits 0 and -32 for two patches, the scores of
    the second patch sum to less than one half after the
    re-normalisation, more than one half away from 1. *)
Lemma renormalized_row_total_far_from_1 :
  Rabs (total (row (double_normalization distant_logits) 0 0 1) - 1) > 1 / 2.
Proof.
  rewrite double_normalization_row, total_map_div.
  pose proof (softmax_row_total_nonneg distant_logits 0 0 1) as Hs.
  assert (Hlt : total (row (Softmax_axis2 distant_logits) 0 0 1) < eps).
  { cbv [row Softmax_axis2 softmax_over_patches distant_logits zip_with map
         combine seq length nth fst snd total fold_right].
    rewrite exp_0.
    replace (-32) with (- (32)) by ring. rewrite exp_Ropp.
    pose proof exp_32_large as H32. pose proof (exp_pos 32) as Hp.
    assert (Hi : 0 < / exp 32) by (apply Rinv_0_lt_compat; exact Hp).
    assert (Hi2 : / exp 32 < eps).
    { unfold eps. apply Rinv_lt_contravar; [nra | exact H32]. }
    rewrite Rplus_0_r at 1. rewrite Rplus_0_r.
    apply Rle_lt_trans with (/ exp 32); [|exact Hi2].
    apply (Rmult_le_reg_r (1 + / exp 32)); [lra|].
    unfold Rdiv. rewrite Rmult_assoc, Rinv_l by lra. nra. }
  pose proof eps_pos as He.
  set (s := total (row (Softmax_axis2 distant_logits) 0 0 1)) in *.
  assert (Hhalf : s / (eps + s) < 1 / 2).
  { apply (Rmult_lt_reg_r (eps + s)); [lra|].
    unfold Rdiv. rewrite Rmult_assoc, Rinv_l by lra. lra. }
  rewrite Rabs_left by lra. lra.
Qed.

Lemma exp_3_cube : exp 3 = exp 1 * exp 1 * exp 1.
Proof.
  replace 3 with (1 + 1 + 1) by ring. rewrite !exp_plus. reflexivity.
Qed.

Lemma div_lt_cross a c b d :
  0 < c -> 0 < d -> a * d < b * c -> a / c < b / d.
Proof.
  intros Hc Hd Hlt.
  apply (Rmult_lt_reg_r (c * d)); [nra|].
  replace (a / c * (c * d)) with (a * d) by (field; lra).
  replace (b / d * (c * d)) with (b * c) by (field; lra).
  exact Hlt.
Qed.

(** C4 as stated: with logits (1, 3) for the first patch and (0, 0) for
    the second, the softmax score at position 0 is larger for the first
    patch than for the second, and after the re-normalisation it is
    smaller: the order along the patch axis is reversed. *)
Lemma renormalization_reverses_order_across_patches :
  entry (Softmax_axis2 crossing_logits) 0 0 1 0
    < entry (Softmax_axis2 crossing_logits) 0 0 0 0
  /\ entry (double_normalization crossing_logits) 0 0 0 0
      < entry (double_normalization crossing_logits) 0 0 1 0.
Proof.
  pose proof exp_1_gt_2 as He2. pose proof exp_le_3 as He3.
  pose proof exp_3_cube as HE. pose proof eps_pos as Heps.
  assert (Heps' : eps < / 8).
  { unfold eps. apply Rinv_lt_contravar; lra. }
  cbv [entry row double_normalization Softmax_axis2 softmax_over_patches
       crossing_logits divide add_scalar reduce_sum_last zip_with map combine
       seq length nth fst snd total fold_right].
  rewrite exp_0, !Rplus_0_r.
  set (e := exp 1) in *. set (E := exp 3) in *.
  assert (HE8 : 8 < E) by nra.
  set (i := / (e + 1)). set (k := / (E + 1)).
  assert (Hi : 0 < i) by (apply Rinv_0_lt_compat; lra).
  assert (Hk : 0 < k) by (apply Rinv_0_lt_compat; lra).
  assert (Hi1 : i * (e + 1) = 1) by (apply Rinv_l; lra).
  assert (Hk1 : k * (E + 1) = 1) by (apply Rinv_l; lra).
  unfold Rdiv. fold i. fold k. rewrite !Rmult_1_l.
  split; [nra|].
  apply (div_lt_cross (e * i) _ i _); [nra | nra |].
  assert (Hgap : / 2 < (E - e) * k) by nra.
  assert (Hsmall : (e - 1) * eps < / 2) by nra.
  nra.
Qed.

End AttentionFacts.

(** ** Facts about the re-normalisation in float32 *)

Module Float32Facts.

Import Attention Float32.
Local Open Scope R_scope.

Lemma total_app r1 r2 : total (r1 ++ r2) = total r1 + total r2.
Proof.
  unfold total. induction r1 as [|v r1 IH]; cbn [app fold_right]; lra.
Qed.

Lemma total_Permutation r r' : Permutation r r' -> total r = total r'.
Proof.
  unfold total. induction 1; cbn [fold_right]; lra.
Qed.

Lemma total_nonneg0 r : (forall v, In v r -> 0 <= v) -> 0 <= total r.
Proof.
  unfold total. induction r as [|v r IH]; intros Hr; cbn [fold_right]; [lra|].
  assert (0 <= v) by (apply Hr; left; reflexivity).
  assert (0 <= fold_right Rplus 0 r)
    by (apply IH; intros w Hw; apply Hr; right; exact Hw).
  lra.
Qed.

Lemma total_between_0_and_length r :
  (forall v, In v r -> 0 <= v <= 1) -> 0 <= total r <= INR (length r).
Proof.
  unfold total. induction r as [|v r IH]; intros Hr.
  - cbn. lra.
  - cbn [fold_right length]. rewrite S_INR.
    assert (0 <= v <= 1) by (apply Hr; left; reflexivity).
    assert (0 <= fold_right Rplus 0 r <= INR (length r))
      by (apply IH; intros w Hw; apply Hr; right; exact Hw).
    lra.
Qed.

(** The sum of a row whose entries lie between [lo * v - e] and
    [hi * v + e] for the entries [v] of another row. *)
Lemma total_map_between (f : R -> R) lo hi e r :
  (forall v, In v r -> lo * v - e <= f v <= hi * v + e) ->
  lo * total r - INR (length r) * e <= total (map f r)
    <= hi * total r + INR (length r) * e.
Proof.
  unfold total. induction r as [|v r IH]; intros Hf.
  - cbn. lra.
  - cbn [map fold_right length]. rewrite S_INR.
    assert (lo * v - e <= f v <= hi * v + e) by (apply Hf; left; reflexivity).
    assert (lo * fold_right Rplus 0 r - INR (length r) * e
              <= fold_right Rplus 0 (map f r)
              <= hi * fold_right Rplus 0 r + INR (length r) * e)
      by (apply IH; intros w Hw; apply Hf; right; exact Hw).
    lra.
Qed.

Lemma pow_above_1 x k : 1 <= x -> 1 <= x ^ k.
Proof. intros Hx. apply pow_R1_Rle. exact Hx. Qed.

Lemma pow_below_1 x k : 0 < x <= 1 -> 0 < x ^ k <= 1.
Proof.
  intros Hx. split; [apply pow_lt; lra|].
  rewrite <- (pow1 k). apply pow_incr. lra.
Qed.

Section Arithmetic.

Variable eps32 : R.
Variables fadd fdiv : R -> R -> R.
Variable fsum : list R -> R.
Variables u eta big : R.
Hypothesis arithmetic : float_arithmetic eps32 fadd fdiv fsum u eta big.

(** Dividing by the shifted row sums divides each row by one number. *)
Lemma divide32_by_row_sums (a : tensor4) :
  renormalize eps32 fadd fdiv fsum a =
    map (map (map (fun r => map (fun v => fdiv v (fadd eps32 (fsum r))) r))) a.
Proof.
  unfold renormalize, divide32, add_scalar32, reduce_sum_last32.
  rewrite map_map.
  rewrite (map_ext _ (map (fun x => map (fun r : list R => [fadd eps32 (fsum r)]) x))).
  2:{ intros x. rewrite map_map. apply map_ext. intros y.
      rewrite map_map. reflexivity. }
  rewrite AttentionFacts.zip_with_map_r. apply map_ext. intros x.
  rewrite AttentionFacts.zip_with_map_r. apply map_ext. intros y.
  rewrite AttentionFacts.zip_with_map_r. reflexivity.
Qed.

Lemma renormalize_row attn b h n :
  row (renormalize eps32 fadd fdiv fsum attn) b h n =
    map (fun v => fdiv v (fadd eps32 (fsum (row attn b h n)))) (row attn b h n).
Proof.
  rewrite divide32_by_row_sums.
  apply (AttentionFacts.row_map
           (fun r => map (fun v => fdiv v (fadd eps32 (fsum r))) r)).
  reflexivity.
Qed.

Lemma renormalize_entry attn b h n j :
  (j < length (row attn b h n))%nat ->
  entry (renormalize eps32 fadd fdiv fsum attn) b h n j =
    fdiv (entry attn b h n j) (fadd eps32 (fsum (row attn b h n))).
Proof.
  intros Hj. unfold entry. rewrite renormalize_row.
  set (c := fadd eps32 (fsum (row attn b h n))).
  rewrite (nth_indep _ 0 (fdiv 0 c)) by (rewrite length_map; exact Hj).
  apply (map_nth (fun v => fdiv v c)).
Qed.

Lemma sums_to_nonempty r s : sums_to fadd r s -> (0 < length r)%nat.
Proof.
  induction 1 as [v | r1 r2 s1 s2 _ IH1 _ IH2 | r r' s Hp _ IH].
  - cbn. lia.
  - rewrite length_app. lia.
  - rewrite <- (Permutation_length Hp). exact IH.
Qed.

Lemma unit_roundoff : 0 < 1 - u <= 1 /\ 1 <= 1 + u.
Proof. destruct (u_range _ _ _ _ _ _ _ arithmetic). lra. Qed.

(** Each of the [length r - 1] additions of a sum of non-negative
    numbers has relative error at most [u]. *)
Lemma sums_to_bounds r s :
  sums_to fadd r s ->
  (forall v, In v r -> 0 <= v) ->
  total r * (1 + u) ^ (length r - 1) <= big ->
  total r * (1 - u) ^ (length r - 1) <= s <= total r * (1 + u) ^ (length r - 1).
Proof.
  destruct unit_roundoff as [HQ HP].
  induction 1 as [v | r1 r2 s1 s2 H1 IH1 H2 IH2 | r r' s Hp _ IH];
    intros Hr Hbig.
  - unfold total. cbn. lra.
  - pose proof (sums_to_nonempty _ _ H1) as Hn1.
    pose proof (sums_to_nonempty _ _ H2) as Hn2.
    rewrite total_app in *. rewrite length_app in *.
    replace (length r1 + length r2 - 1)%nat
      with (S ((length r1 - 1) + (length r2 - 1))) in * by lia.
    set (a1 := (length r1 - 1)%nat) in *. set (a2 := (length r2 - 1)%nat) in *.
    assert (HT1 : 0 <= total r1).
    { apply total_nonneg0. intros v Hv. apply Hr, in_or_app. left. exact Hv. }
    assert (HT2 : 0 <= total r2).
    { apply total_nonneg0. intros v Hv. apply Hr, in_or_app. right. exact Hv. }
    rewrite <- !tech_pow_Rmult in *. rewrite !pow_add in *.
    pose proof (pow_above_1 (1 + u) a1 HP) as Hp1.
    pose proof (pow_above_1 (1 + u) a2 HP) as Hp2.
    pose proof (pow_below_1 (1 - u) a1 HQ) as Hq1.
    pose proof (pow_below_1 (1 - u) a2 HQ) as Hq2.
    set (p1 := (1 + u) ^ a1) in *. set (p2 := (1 + u) ^ a2) in *.
    set (q1 := (1 - u) ^ a1) in *. set (q2 := (1 - u) ^ a2) in *.
    set (T1 := total r1) in *. set (T2 := total r2) in *.
    assert (Hpp : T1 * p1 + T2 * p2 <= (T1 + T2) * (p1 * p2)).
    { assert (0 <= T1 * p1 * (p2 - 1)) by (apply Rmult_le_pos; nra).
      assert (0 <= T2 * p2 * (p1 - 1)) by (apply Rmult_le_pos; nra).
      lra. }
    assert (Hqq : (T1 + T2) * (q1 * q2) <= T1 * q1 + T2 * q2).
    { assert (0 <= T1 * q1 * (1 - q2)) by (apply Rmult_le_pos; nra).
      assert (0 <= T2 * q2 * (1 - q1)) by (apply Rmult_le_pos; nra).
      lra. }
    assert (Hle : (T1 + T2) * (p1 * p2) <= (T1 + T2) * ((1 + u) * (p1 * p2))).
    { assert (0 <= (T1 + T2) * (p1 * p2) * u)
        by (apply Rmult_le_pos; [apply Rmult_le_pos; nra | lra]).
      lra. }
    destruct IH1 as [L1 U1].
    { intros v Hv. apply Hr, in_or_app. left. exact Hv. }
    { nra. }
    destruct IH2 as [L2 U2].
    { intros v Hv. apply Hr, in_or_app. right. exact Hv. }
    { nra. }
    assert (Hs1 : 0 <= s1) by nra.
    assert (Hs2 : 0 <= s2) by nra.
    destruct (fadd_error _ _ _ _ _ _ _ arithmetic s1 s2 Hs1 Hs2) as [L U]; [lra|].
    split.
    + apply Rle_trans with ((s1 + s2) * (1 - u)); [|exact L].
      replace ((T1 + T2) * ((1 - u) * (q1 * q2)))
        with ((T1 + T2) * (q1 * q2) * (1 - u)) by ring.
      apply Rmult_le_compat_r; lra.
    + apply Rle_trans with ((s1 + s2) * (1 + u)); [exact U|].
      replace ((T1 + T2) * ((1 + u) * (p1 * p2)))
        with ((T1 + T2) * (p1 * p2) * (1 + u)) by ring.
      apply Rmult_le_compat_r; lra.
  - rewrite <- (total_Permutation _ _ Hp) in *.
    rewrite <- (Permutation_length Hp) in *.
    apply IH; [|exact Hbig].
    intros v Hv. apply Hr. apply (Permutation_in _ Hp). exact Hv.
Qed.

Lemma eps32_pos : 0 < eps32.
Proof.
  destruct unit_roundoff as [HQ _].
  destruct (eps32_value _ _ _ _ _ _ _ arithmetic) as [L _].
  assert (0 < / 1000000000) by (apply Rinv_0_lt_compat; lra).
  assert (0 < / 1000000000 * (1 - u)) by (apply Rmult_lt_0_compat; lra).
  lra.
Qed.

Section Row.

(** One row of softmax scores, short enough for its sum not to overflow. *)
Variable r : list R.
Hypothesis scores : forall v, In v r -> 0 <= v <= 1.
Hypothesis no_overflow :
  eps32 + INR (length r) * (1 + u) ^ (length r - 1) <= big.

Lemma row_total_range :
  0 <= total r
  /\ total r * (1 + u) ^ (length r - 1) <= INR (length r) * (1 + u) ^ (length r - 1).
Proof.
  destruct unit_roundoff as [_ HP].
  destruct (total_between_0_and_length r scores) as [L U].
  split; [exact L|].
  apply Rmult_le_compat_r; [|exact U].
  apply Rle_trans with 1; [lra | apply pow_above_1; exact HP].
Qed.

Lemma empty_or_not : r = [] \/ r <> [].
Proof. destruct r; [left; reflexivity | right; discriminate]. Qed.

Lemma fsum_bounds :
  total r * (1 - u) ^ (length r - 1) <= fsum r
    <= total r * (1 + u) ^ (length r - 1).
Proof.
  destruct empty_or_not as [E | Hne].
  - rewrite E. rewrite (fsum_nil _ _ _ _ _ _ _ arithmetic). unfold total. cbn. lra.
  - apply sums_to_bounds.
    + apply (fsum_order _ _ _ _ _ _ _ arithmetic). exact Hne.
    + intros w Hw. apply scores. exact Hw.
    + pose proof eps32_pos. destruct row_total_range. lra.
Qed.

Lemma fsum_nonneg : 0 <= fsum r.
Proof.
  destruct unit_roundoff as [HQ _].
  destruct fsum_bounds as [L _]. destruct row_total_range as [HT _].
  pose proof (pow_below_1 (1 - u) (length r - 1) HQ).
  apply Rle_trans with (total r * (1 - u) ^ (length r - 1)); [|exact L].
  apply Rmult_le_pos; lra.
Qed.

Lemma fsum_no_overflow : eps32 + fsum r <= big.
Proof.
  destruct fsum_bounds as [_ U]. destruct row_total_range as [_ HT]. lra.
Qed.

(** The number that the scores of the row are divided by. *)
Lemma denominator_pos :
  / 1000000000 * (1 - u) ^ 2 <= fadd eps32 (fsum r)
  /\ 0 < fadd eps32 (fsum r).
Proof.
  destruct unit_roundoff as [HQ _].
  pose proof eps32_pos as He. pose proof fsum_nonneg as Hs.
  destruct (eps32_value _ _ _ _ _ _ _ arithmetic) as [Le _].
  destruct (fadd_error _ _ _ _ _ _ _ arithmetic eps32 (fsum r)) as [L _];
    [lra | exact Hs | exact fsum_no_overflow |].
  assert (0 < / 1000000000) by (apply Rinv_0_lt_compat; lra).
  assert (H1 : / 1000000000 * (1 - u) * (1 - u) <= eps32 * (1 - u))
    by (apply Rmult_le_compat_r; lra).
  assert (H2 : eps32 * (1 - u) <= (eps32 + fsum r) * (1 - u))
    by (apply Rmult_le_compat_r; lra).
  assert (0 < / 1000000000 * (1 - u) * (1 - u))
    by (repeat apply Rmult_lt_0_compat; lra).
  cbn [pow]. rewrite Rmult_1_r. split; lra.
Qed.

Lemma denominator_bounds :
  r <> [] ->
  (eps32 + total r) * (1 - u) ^ length r <= fadd eps32 (fsum r)
    <= (eps32 + total r) * (1 + u) ^ length r.
Proof.
  intros Hne.
  destruct unit_roundoff as [HQ HP].
  pose proof eps32_pos as He. pose proof fsum_nonneg as Hs.
  destruct row_total_range as [HT _].
  destruct fsum_bounds as [Ls Us].
  destruct (fadd_error _ _ _ _ _ _ _ arithmetic eps32 (fsum r)) as [L U];
    [lra | exact Hs | exact fsum_no_overflow |].
  assert (Hlen : length r = S (length r - 1)).
  { destruct r; [contradiction | cbn; lia]. }
  rewrite Hlen at 1 2. rewrite <- !tech_pow_Rmult.
  pose proof (pow_above_1 (1 + u) (length r - 1) HP) as Hp.
  pose proof (pow_below_1 (1 - u) (length r - 1) HQ) as Hq.
  set (p := (1 + u) ^ (length r - 1)) in *.
  set (q := (1 - u) ^ (length r - 1)) in *.
  assert (Hup : eps32 + fsum r <= (eps32 + total r) * p).
  { assert (0 <= eps32 * (p - 1)) by (apply Rmult_le_pos; lra). lra. }
  assert (Hlo : (eps32 + total r) * q <= eps32 + fsum r).
  { assert (0 <= eps32 * (1 - q)) by (apply Rmult_le_pos; lra). lra. }
  split.
  - apply Rle_trans with ((eps32 + fsum r) * (1 - u)); [|exact L].
    replace ((eps32 + total r) * ((1 - u) * q))
      with ((eps32 + total r) * q * (1 - u)) by ring.
    apply Rmult_le_compat_r; lra.
  - apply Rle_trans with ((eps32 + fsum r) * (1 + u)); [exact U|].
    replace ((eps32 + total r) * ((1 + u) * p))
      with ((eps32 + total r) * p * (1 + u)) by ring.
    apply Rmult_le_compat_r; lra.
Qed.

(** No quotient of a score by the denominator overflows. *)
Lemma quotient_no_overflow v :
  0 <= v <= 1 -> v / fadd eps32 (fsum r) <= big.
Proof.
  intros Hv. destruct denominator_pos as [Hc Hc0].
  destruct unit_roundoff as [HQ _].
  pose proof (big_range _ _ _ _ _ _ _ arithmetic) as Hb.
  set (c := fadd eps32 (fsum r)) in *.
  assert (Hq2 : 0 < (1 - u) ^ 2) by (apply pow_lt; lra).
  assert (Hi : 0 < / 1000000000) by (apply Rinv_0_lt_compat; lra).
  assert (Hbig0 : 0 < big) by nra.
  apply (Rmult_le_reg_r c); [exact Hc0|].
  unfold Rdiv. rewrite Rmult_assoc, Rinv_l by lra. rewrite Rmult_1_r.
  apply Rle_trans with 1; [lra|].
  apply Rle_trans with (big * (/ 1000000000 * (1 - u) ^ 2)).
  - replace (big * (/ 1000000000 * (1 - u) ^ 2))
      with (big * (1 - u) ^ 2 * / 1000000000) by ring.
    apply (Rmult_le_reg_r 1000000000); [lra|].
    rewrite Rmult_assoc, Rinv_l by lra. lra.
  - apply Rmult_le_compat_l; lra.
Qed.

(** Along the row, the quotients are ordered as the scores are. *)
Lemma quotients_ordered v1 v2 :
  0 <= v1 -> v1 <= v2 -> v2 <= 1 ->
  fdiv v1 (fadd eps32 (fsum r)) <= fdiv v2 (fadd eps32 (fsum r)).
Proof.
  intros H1 H12 H2. destruct denominator_pos as [_ Hc0].
  apply (fdiv_monotone _ _ _ _ _ _ _ arithmetic); try assumption.
  apply quotient_no_overflow. lra.
Qed.

(** The total of the quotients, against the exact value
    [total r / (eps32 + total r)]. *)
Lemma quotients_total :
  total r / (eps32 + total r) * ((1 - u) / (1 + u) ^ length r)
      - INR (length r) * eta
    <= total (map (fun v => fdiv v (fadd eps32 (fsum r))) r)
    <= total r / (eps32 + total r) * ((1 + u) / (1 - u) ^ length r)
      + INR (length r) * eta.
Proof.
  destruct unit_roundoff as [HQ HP].
  pose proof eps32_pos as He.
  destruct row_total_range as [HT _].
  destruct empty_or_not as [E | Hne].
  - rewrite E. unfold total. cbn. lra.
  - destruct denominator_pos as [_ Hc0].
    destruct (denominator_bounds Hne) as [Lc Uc].
    pose proof (pow_above_1 (1 + u) (length r) HP) as Hp.
    pose proof (pow_below_1 (1 - u) (length r) HQ) as Hq.
    set (c := fadd eps32 (fsum r)) in *.
    set (p := (1 + u) ^ length r) in *. set (q := (1 - u) ^ length r) in *.
    set (T := total r) in *.
    assert (Hic : 0 < / c) by (apply Rinv_0_lt_compat; exact Hc0).
    destruct (total_map_between (fun v => fdiv v c) ((1 - u) * / c) ((1 + u) * / c) eta r)
      as [L U].
    { intros v Hv. pose proof (scores v Hv) as Hv01.
      destruct (fdiv_error _ _ _ _ _ _ _ arithmetic v c) as [Lv Uv];
        [lra | exact Hc0 | apply quotient_no_overflow; exact Hv01 |].
      unfold Rdiv in Lv, Uv. split.
      - replace ((1 - u) * / c * v) with (v * / c * (1 - u)) by ring. exact Lv.
      - replace ((1 + u) * / c * v) with (v * / c * (1 + u)) by ring. exact Uv. }
    fold T in L, U.
    assert (HeT : 0 < eps32 + T) by lra.
    assert (Hlow : T / (eps32 + T) * ((1 - u) / p) <= (1 - u) * / c * T).
    { replace (T / (eps32 + T) * ((1 - u) / p))
        with (T * (1 - u) * / ((eps32 + T) * p)) by (field; lra).
      replace ((1 - u) * / c * T) with (T * (1 - u) * / c) by ring.
      apply Rmult_le_compat_l; [apply Rmult_le_pos; lra|].
      apply Rinv_le_contravar; [exact Hc0 | exact Uc]. }
    assert (Hhigh : (1 + u) * / c * T <= T / (eps32 + T) * ((1 + u) / q)).
    { replace (T / (eps32 + T) * ((1 + u) / q))
        with (T * (1 + u) * / ((eps32 + T) * q)) by (field; lra).
      replace ((1 + u) * / c * T) with (T * (1 + u) * / c) by ring.
      apply Rmult_le_compat_l; [apply Rmult_le_pos; lra|].
      apply Rinv_le_contravar; [apply Rmult_lt_0_compat; lra | exact Lc]. }
    split; lra.
Qed.

End Row.

End Arithmetic.

(** Exact arithmetic is an instance: no rounding, no underflow. *)
Lemma exact_arithmetic :
  float_arithmetic (/ 1000000000) Rplus Rdiv total 0 0 10000000000.
Proof.
  assert (Hi : 0 < / 1000000000) by (apply Rinv_0_lt_compat; lra).
  constructor.
  - lra.
  - lra.
  - cbn [pow]. lra.
  - lra.
  - intros x y _ _ _. lra.
  - intros x y _ _ _. set (q := x / y). lra.
  - intros x x' y _ Hx Hy _. unfold Rdiv.
    apply Rmult_le_compat_r; [|exact Hx].
    apply Rlt_le, Rinv_0_lt_compat. exact Hy.
  - reflexivity.
  - intros r Hr. induction r as [|v r IH]; [contradiction|].
    destruct r as [|w r].
    + replace (total [v]) with v by (unfold total; cbn; lra).
      constructor.
    + change (total (v :: w :: r)) with (v + total (w :: r)).
      apply (sums_split Rplus [v] (w :: r)); [constructor|].
      apply IH. discriminate.
Qed.

(** C4, amended.  In float32, the re-normalisation divides all the
    scores of one row (one patch) by the same positive number, and the
    division is monotone: of two scores of one row, the one that was no
    larger after the softmax is no larger after the re-normalisation, and
    the one that is larger after the re-normalisation was larger after
    the softmax.  (Two different scores can round to the same quotient,
    so the order is kept in this sense only; and along the patch axis,
    where the divisors differ, it is not kept.) *)
Theorem renormalize_keeps_order_in_row
    eps32 fadd fdiv fsum u eta big attn b h n j1 j2 :
  float_arithmetic eps32 fadd fdiv fsum u eta big ->
  (forall v, In v (row attn b h n) -> 0 <= v <= 1) ->
  eps32 + INR (length (row attn b h n))
            * (1 + u) ^ (length (row attn b h n) - 1) <= big ->
  (j1 < length (row attn b h n))%nat ->
  (j2 < length (row attn b h n))%nat ->
  (entry attn b h n j1 <= entry attn b h n j2 ->
   entry (renormalize eps32 fadd fdiv fsum attn) b h n j1
     <= entry (renormalize eps32 fadd fdiv fsum attn) b h n j2)
  /\ (entry (renormalize eps32 fadd fdiv fsum attn) b h n j1
        < entry (renormalize eps32 fadd fdiv fsum attn) b h n j2 ->
      entry attn b h n j1 < entry attn b h n j2).
Proof.
  intros Har Hr Hbig Hj1 Hj2.
  rewrite !renormalize_entry by assumption.
  assert (H1 : 0 <= entry attn b h n j1 <= 1).
  { apply Hr. unfold entry. apply nth_In. exact Hj1. }
  assert (H2 : 0 <= entry attn b h n j2 <= 1).
  { apply Hr. unfold entry. apply nth_In. exact Hj2. }
  pose proof (quotients_ordered eps32 fadd fdiv fsum u eta big Har _ Hr Hbig)
    as Hmono.
  split.
  - intros Hle. apply Hmono; lra.
  - intros Hlt.
    destruct (Rlt_le_dec (entry attn b h n j1) (entry attn b h n j2))
      as [Hlt' | Hge]; [exact Hlt'|].
    assert (fdiv (entry attn b h n j2) (fadd eps32 (fsum (row attn b h n)))
              <= fdiv (entry attn b h n j1) (fadd eps32 (fsum (row attn b h n))))
      by (apply Hmono; lra).
    lra.
Qed.

Lemma renormalize_keeps_order_in_row_witness :
  entry quarters 0 0 0 0 <= entry quarters 0 0 0 1
  /\ entry (renormalize (/ 1000000000) Rplus Rdiv total quarters) 0 0 0 0
       <= entry (renormalize (/ 1000000000) Rplus Rdiv total quarters) 0 0 0 1.
Proof.
  assert (Hle : entry quarters 0 0 0 0 <= entry quarters 0 0 0 1)
    by (cbn; lra).
  split; [exact Hle|].
  destruct (renormalize_keeps_order_in_row
              (/ 1000000000) Rplus Rdiv total 0 0 10000000000 quarters 0 0 0 0 1)
    as [Hkeep _].
  - exact exact_arithmetic.
  - cbn. intros v [<- | [<- | []]]; lra.
  - assert (0 < / 1000000000 < 1).
    { split; [apply Rinv_0_lt_compat; lra|].
      rewrite <- Rinv_1. apply Rinv_lt_contravar; lra. }
    cbn. lra.
  - cbn. lia.
  - cbn. lia.
  - exact (Hkeep Hle).
Defined.

(** C3, amended.  In float32, a row whose softmax scores total s sums,
    after the re-normalisation, to s / (eps32 + s) within floating-point
    tolerance, [eps32] being the float32 value of 1e-9: the total lies
    between (1 - u) / (1 + u)^S and (1 + u) / (1 - u)^S times that
    number, S being the length of the row, up to S underflow errors.
    That number is near 1 only when s is large compared with 1e-9; when
    s is at most [eps32], the total is at most one half, up to the same
    tolerance. *)
Theorem renormalized_row_total_bounds
    eps32 fadd fdiv fsum u eta big attn b h n :
  float_arithmetic eps32 fadd fdiv fsum u eta big ->
  (forall v, In v (row attn b h n) -> 0 <= v <= 1) ->
  eps32 + INR (length (row attn b h n))
            * (1 + u) ^ (length (row attn b h n) - 1) <= big ->
  let S := length (row attn b h n) in
  let s := total (row attn b h n) in
  let total' := total (row (renormalize eps32 fadd fdiv fsum attn) b h n) in
  (s / (eps32 + s) * ((1 - u) / (1 + u) ^ S) - INR S * eta <= total'
     <= s / (eps32 + s) * ((1 + u) / (1 - u) ^ S) + INR S * eta)
  /\ (s <= eps32 ->
      total' <= / 2 * ((1 + u) / (1 - u) ^ S) + INR S * eta).
Proof.
  intros Har Hr Hbig. cbv zeta.
  rewrite renormalize_row.
  pose proof (quotients_total eps32 fadd fdiv fsum u eta big Har _ Hr Hbig)
    as [L U].
  split; [split; assumption|].
  intros Hs.
  pose proof (eps32_pos eps32 fadd fdiv fsum u eta big Har) as He.
  destruct (unit_roundoff eps32 fadd fdiv fsum u eta big Har) as [HQ HP].
  destruct (total_between_0_and_length _ Hr) as [HT _].
  pose proof (pow_below_1 (1 - u) (length (row attn b h n)) HQ) as Hq.
  set (T := total (row attn b h n)) in *.
  set (q := (1 - u) ^ length (row attn b h n)) in *.
  assert (Hhalf : T / (eps32 + T) <= / 2).
  { apply (Rmult_le_reg_r (eps32 + T)); [lra|].
    unfold Rdiv. rewrite Rmult_assoc, Rinv_l by lra. lra. }
  assert (Hf : 0 <= (1 + u) / q).
  { apply Rmult_le_pos; [lra|]. apply Rlt_le, Rinv_0_lt_compat. lra. }
  assert (T / (eps32 + T) * ((1 + u) / q) <= / 2 * ((1 + u) / q))
    by (apply Rmult_le_compat_r; assumption).
  lra.
Qed.

Lemma renormalized_row_total_bounds_witness :
  total (row faint 0 0 1) <= / 1000000000
  /\ (total (row faint 0 0 1) / (/ 1000000000 + total (row faint 0 0 1))
        * ((1 - 0) / (1 + 0) ^ 1) - INR 1 * 0
      <= total (row (renormalize (/ 1000000000) Rplus Rdiv total faint) 0 0 1)
      <= total (row faint 0 0 1) / (/ 1000000000 + total (row faint 0 0 1))
        * ((1 + 0) / (1 - 0) ^ 1) + INR 1 * 0)
  /\ total (row (renormalize (/ 1000000000) Rplus Rdiv total faint) 0 0 1)
     <= / 2 * ((1 + 0) / (1 - 0) ^ 1) + INR 1 * 0.
Proof.
  assert (Hs : total (row faint 0 0 1) <= / 1000000000).
  { unfold total. cbn. rewrite Rplus_0_r.
    apply Rinv_le_contravar; lra. }
  split; [exact Hs|].
  destruct (renormalized_row_total_bounds
              (/ 1000000000) Rplus Rdiv total 0 0 10000000000 faint 0 0 1)
    as [Hb Hh].
  - exact exact_arithmetic.
  - cbn. intros v [<- | []]. split.
    + apply Rlt_le, Rinv_0_lt_compat. lra.
    + rewrite <- Rinv_1. apply Rinv_le_contravar; lra.
  - assert (0 < / 1000000000 < 1).
    { split; [apply Rinv_0_lt_compat; lra|].
      rewrite <- Rinv_1. apply Rinv_lt_contravar; lra. }
    cbn. lra.
  - split; [exact Hb | exact (Hh Hs)].
Defined.

(** X18. Whatever the float32 operations are, the re-normalisation keeps
    the four dimensions of the attention map: the numbers of batch
    elements, heads, patches and positions. *)
Theorem renormalize_dimensions eps32 fadd fdiv fsum attn b h n :
  length (renormalize eps32 fadd fdiv fsum attn) = length attn
  /\ length (nth b (renormalize eps32 fadd fdiv fsum attn) [])
     = length (nth b attn [])
  /\ length (nth h (nth b (renormalize eps32 fadd fdiv fsum attn) []) [])
     = length (nth h (nth b attn []) [])
  /\ length (row (renormalize eps32 fadd fdiv fsum attn) b h n)
     = length (row attn b h n).
Proof.
  split; [|split; [|split]].
  - rewrite divide32_by_row_sums, length_map. reflexivity.
  - rewrite divide32_by_row_sums.
    rewrite (AttentionFacts.nth_map_default _ attn b [] []) by reflexivity.
    apply length_map.
  - rewrite divide32_by_row_sums.
    rewrite (AttentionFacts.nth_map_default _ attn b [] []) by reflexivity.
    rewrite (AttentionFacts.nth_map_default _ (nth b attn []) h [] []) by reflexivity.
    apply length_map.
  - rewrite renormalize_row. apply length_map.
Qed.

End Float32Facts.

(** ** Facts about the transformer stack *)

Module BlocksFacts.

Import Keras KerasFacts Blocks.
Local Open Scope Z_scope.
Local Open Scope keras_scope.

(** *** Argument errors of [external_attention] *)

(** X1. A tensor that is not of rank 3 makes [external_attention] raise
    [ValueError] at the unpacking of [x.shape], before any layer is
    built. *)
Theorem external_attention_rank_error x d H k ad pd g :
  length (tshape x) <> 3%nat ->
  external_attention x d H k ad pd g = (inl ValueError, g).
Proof.
  intros Hrank. unfold external_attention.
  destruct (tshape x) as [|a [|b [|c [|e s]]]]; cbn [length] in Hrank;
    try reflexivity.
  contradiction.
Qed.

Lemma external_attention_rank_error_witness :
  external_attention {| tid := 0; tshape := [Some 256; Some 64] |} 64 4 4
    (2 # 10) (2 # 10) [] = (inl ValueError, []).
Proof.
  apply external_attention_rank_error. cbn [tshape length]. lia.
Defined.

(** X2. With [num_heads] = 0 the test [dim % num_heads] raises
    [ZeroDivisionError], not [AssertionError], and no layer is built. *)
Theorem external_attention_zero_heads i b n c d k ad pd g :
  external_attention {| tid := i; tshape := [b; n; c] |} d 0 k ad pd g
    = (inl ZeroDivisionError, g).
Proof. reflexivity. Qed.

(** X3. With [dim_coefficient] = 0 the assertion passes and the first
    Dense layer, of 0 units, is built; the head width
    [dim * dim_coefficient // num_heads] then divides by zero.  The
    exception leaves that layer in the graph. *)
Theorem external_attention_zero_coefficient i b n c d H ad pd g :
  H <> 0 -> d mod H = 0 ->
  external_attention {| tid := i; tshape := [b; n; Some c] |} d H 0 ad pd g
    = (inl ZeroDivisionError,
       g ++ [ {| op := Dense 0 linear; inbound := [i] |} ]).
Proof.
  intros HH Hmod. unfold external_attention. cbn [tshape].
  run_step ltac:(reflexivity). cbn [fst].
  run_step ltac:(apply py_mod_ok; assumption).
  rewrite Hmod. run_step ltac:(reflexivity).
  rewrite !Z.mul_0_r.
  run_call ltac:(apply (dense_shape_ok 0 [b; n] c); [lia | discriminate]).
  reflexivity.
Qed.

Lemma external_attention_zero_coefficient_witness :
  external_attention {| tid := 0; tshape := [None; Some 256; Some 64] |} 64 4 0
    (2 # 10) (2 # 10) embedded_graph
    = (inl ZeroDivisionError,
       embedded_graph ++ [ {| op := Dense 0 linear; inbound := [0%nat] |} ]).
Proof.
  apply external_attention_zero_coefficient; [lia | reflexivity].
Defined.

(** *** The width of the input is not checked *)

(** X4. [external_attention] reads [channel] from [x.shape] and never
    uses it: for any input width c the run returns a tensor of width
    [dim], after adding fourteen nodes. *)
Theorem external_attention_ignores_channel x b N c d H k ad pd g :
  tshape x = [b; Some N; Some c] ->
  0 < N -> 0 < d -> 0 < H -> 0 < k -> d mod H = 0 ->
  valid_rate ad = true -> valid_rate pd = true ->
  exists y g',
    external_attention x d H k ad pd g = (inr y, g')
    /\ tshape y = [b; Some N; Some d]
    /\ length g' = (length g + 14)%nat.
Proof.
  intros Hx HN Hd HH Hk Hmod Had Hpd.
  eexists. eexists. split.
  - apply (external_attention_run x b N c d H k ad pd g); assumption.
  - split; [reflexivity|]. rewrite length_app. reflexivity.
Qed.

Lemma external_attention_ignores_channel_witness :
  exists y g',
    external_attention {| tid := 0; tshape := [None; Some 256; Some 12] |}
      64 4 4 (2 # 10) (2 # 10) embedded_graph = (inr y, g')
    /\ tshape y = [None; Some 256; Some 64]
    /\ length g' = (length embedded_graph + 14)%nat.
Proof.
  apply (external_attention_ignores_channel _ None 256 12 64 4 4);
    [reflexivity | lia | lia | lia | lia | reflexivity | reflexivity | reflexivity].
Defined.

(** *** The two residual additions *)

Lemma add_shape_mismatch b n d c :
  d <> c -> d <> 1 -> c <> 1 ->
  add_shape [b; Some n; Some d] [b; Some n; Some c] = inl ValueError.
Proof.
  intros Hdc Hd Hc. unfold add_shape. cbn [rev app merge_aligned merge_dim].
  apply Z.eqb_neq in Hdc, Hd, Hc. rewrite Hdc, Hd, Hc.
  destruct b as [B|]; [rewrite Z.eqb_refl|]; reflexivity.
Qed.

Lemma add_shape_widens b n d :
  add_shape [b; Some n; Some d] [b; Some n; Some 1] = inr [b; Some n; Some d].
Proof.
  unfold add_shape. cbn [rev app merge_aligned].
  rewrite merge_dim_refl.
  assert (E : merge_dim (Some d) (Some 1) = inr (Some d)).
  { cbn. destruct (Z.eqb_spec d 1); subst; reflexivity. }
  rewrite E. cbn [rev app].
  destruct b as [B|]; [rewrite Z.eqb_refl|]; reflexivity.
Qed.

(** The second half of [transformer_encoder] when the first addition
    returns a tensor of width d, whatever the width of the block's
    input. *)
Lemma transformer_encoder_tail_from a x b N d m g :
  compute_output_shape Add [tshape a; tshape x] = inr [b; Some N; Some d] ->
  0 <= d -> 0 <= m ->
  (x1 <- call Add [a; x] ;;
   x2 <- call (LayerNormalization eps_1e_5) [x1] ;;
   x3 <- mlp x2 d m mlp_drop_rate ;;
   x4 <- call Add [x3; x1] ;;
   ret x4) g =
    (inr {| tid := length g + 6; tshape := [b; Some N; Some d] |},
     g ++ [ {| op := Add; inbound := [tid a; tid x] |};
            {| op := LayerNormalization eps_1e_5; inbound := [length g] |};
            {| op := Dense m gelu; inbound := [length g + 1]%nat |};
            {| op := Dropout mlp_drop_rate; inbound := [length g + 2]%nat |};
            {| op := Dense d linear; inbound := [length g + 3]%nat |};
            {| op := Dropout mlp_drop_rate; inbound := [length g + 4]%nat |};
            {| op := Add; inbound := [length g + 5; length g]%nat |} ]).
Proof.
  intros Hadd Hd Hm.
  run_call ltac:(exact Hadd).
  run_call ltac:(reflexivity).
  run_step ltac:(apply (mlp_run _ b N d d m); [reflexivity | lia | lia]).
  run_call ltac:(apply add_shape_same).
  unfold ret. cbn [map tid app].
  repeat rewrite <- app_assoc. cbn [app].
  repeat rewrite length_app. cbn [length].
  repeat rewrite <- Nat.add_assoc. cbn [Nat.add].
  reflexivity.
Qed.

(** X5. When the width c of the input differs from [embedding_dim] (and
    neither is 1), the external-attention stage still runs; the mismatch
    is only met by the first [layers.add], which raises [ValueError] after
    fifteen nodes have been added to the graph. *)
Theorem transformer_encoder_width_mismatch x b N c d m H k ad pd g :
  tshape x = [b; Some N; Some c] ->
  0 < N -> 0 < d -> 0 < H -> 0 < k -> d mod H = 0 ->
  valid_rate ad = true -> valid_rate pd = true ->
  c <> d -> c <> 1 -> d <> 1 ->
  exists g',
    transformer_encoder x d m H k ad pd "external_attention" g
      = (inl ValueError, g')
    /\ length g' = (length g + 15)%nat
    /\ firstn (length g) g' = g.
Proof.
  intros Hx HN Hd HH Hk Hmod Had Hpd Hcd Hc1 Hd1.
  destruct x as [xid xs]. cbn [tshape] in *. subst xs.
  unfold transformer_encoder.
  run_call ltac:(reflexivity).
  rewrite String.eqb_refl.
  run_step ltac:(apply (external_attention_run _ b N c d H k ad pd);
                 solve [reflexivity | assumption]).
  unfold bind at 1. unfold call at 1. cbn [map tshape compute_output_shape].
  rewrite add_shape_mismatch by (try assumption; intros E; apply Hcd; symmetry; exact E).
  eexists. split; [reflexivity|]. split.
  - rewrite !length_app. cbn [length]. lia.
  - rewrite <- app_assoc. rewrite firstn_app, Nat.sub_diag, firstn_all, firstn_O.
    apply app_nil_r.
Qed.

Lemma transformer_encoder_width_mismatch_witness :
  exists g',
    transformer_encoder {| tid := 0; tshape := [None; Some 256; Some 12] |}
      64 64 4 4 (2 # 10) (2 # 10) "external_attention" embedded_graph
      = (inl ValueError, g')
    /\ length g' = (length embedded_graph + 15)%nat
    /\ firstn (length embedded_graph) g' = embedded_graph.
Proof.
  apply (transformer_encoder_width_mismatch _ None 256 12 64 64 4 4);
    [reflexivity | lia | lia | lia | lia | reflexivity | reflexivity | reflexivity
    | lia | lia | lia].
Defined.

(** X6. An input of width 1 is not rejected: the first [layers.add]
    broadcasts it against the attention output, and the block returns a
    tensor of width [embedding_dim], wider than its input. *)
Theorem transformer_encoder_widens_width_one x b N d m H k ad pd g :
  tshape x = [b; Some N; Some 1] ->
  0 < N -> 0 < d -> 0 <= m -> 0 < H -> 0 < k -> d mod H = 0 ->
  valid_rate ad = true -> valid_rate pd = true ->
  exists y g',
    transformer_encoder x d m H k ad pd "external_attention" g = (inr y, g')
    /\ tshape y = [b; Some N; Some d].
Proof.
  intros Hx HN Hd Hm HH Hk Hmod Had Hpd.
  destruct x as [xid xs]. cbn [tshape] in *. subst xs.
  unfold transformer_encoder.
  run_call ltac:(reflexivity).
  rewrite String.eqb_refl.
  run_step ltac:(apply (external_attention_run _ b N 1 d H k ad pd);
                 solve [reflexivity | assumption]).
  eexists. eexists. split.
  - apply (transformer_encoder_tail_from _ _ b N d m); [| lia | lia].
    cbn [tshape compute_output_shape]. apply add_shape_widens.
  - reflexivity.
Qed.

Lemma transformer_encoder_widens_width_one_witness :
  exists y g',
    transformer_encoder {| tid := 0; tshape := [None; Some 256; Some 1] |}
      64 64 4 4 (2 # 10) (2 # 10) "external_attention" embedded_graph
      = (inr y, g')
    /\ tshape y = [None; Some 256; Some 64].
Proof.
  apply (transformer_encoder_widens_width_one _ None 256 64 64 4 4);
    [reflexivity | lia | lia | lia | lia | lia | reflexivity | reflexivity | reflexivity].
Defined.

(** *** The two attention variants *)

(** X7. In [transformer_encoder] the divisibility assertion is reached
    after the first LayerNormalization has been built: with
    "external_attention" and [embedding_dim] not divisible by [num_heads]
    the block raises [AssertionError] and leaves that one node in the
    graph. *)
Theorem transformer_encoder_assertion_after_norm i b n c d m H k ad pd g :
  H <> 0 -> d mod H <> 0 ->
  transformer_encoder {| tid := i; tshape := [b; n; Some c] |} d m H k ad pd
    "external_attention" g
    = (inl AssertionError,
       g ++ [ {| op := LayerNormalization eps_1e_5; inbound := [i] |} ]).
Proof.
  intros HH Hmod. unfold transformer_encoder.
  run_call ltac:(reflexivity).
  rewrite String.eqb_refl.
  unfold bind at 1.
  rewrite (external_attention_assertion _ b n (Some c)) by (try reflexivity; assumption).
  reflexivity.
Qed.

Lemma transformer_encoder_assertion_after_norm_witness :
  transformer_encoder {| tid := 0; tshape := [None; Some 256; Some 65] |}
    65 64 4 4 (2 # 10) (2 # 10) "external_attention" embedded_graph
    = (inl AssertionError,
       embedded_graph ++
         [ {| op := LayerNormalization eps_1e_5; inbound := [0%nat] |} ]).
Proof.
  apply transformer_encoder_assertion_after_norm; [lia | vm_compute; lia].
Defined.



(** *** The stack of blocks *)

(** One block, for any [attention_type]. *)
Lemma transformer_encoder_block x b N d m H k ad pd attention_type g :
  tshape x = [b; Some N; Some d] ->
  0 < N -> 0 < d -> 0 <= m -> 0 < H -> 0 < k -> d mod H = 0 ->
  valid_rate ad = true -> valid_rate pd = true ->
  exists y g',
    transformer_encoder x d m H k ad pd attention_type g = (inr y, g')
    /\ tshape y = [b; Some N; Some d]
    /\ length g' = (length g + nodes_per_block attention_type)%nat.
Proof.
  intros Hx HN Hd Hm HH Hk Hmod Had Hpd.
  destruct x as [xid xs]. cbn [tshape] in *. subst xs.
  unfold transformer_encoder, nodes_per_block.
  run_call ltac:(reflexivity).
  destruct (String.eqb attention_type "external_attention");
    [| destruct (String.eqb attention_type "self_attention")].
  - run_step ltac:(apply (external_attention_run _ b N d d H k ad pd);
                   solve [reflexivity | assumption]).
    rewrite (transformer_encoder_tail _ _ b N d m) by solve [reflexivity | lia].
    eexists. eexists. split; [reflexivity|]. split; [reflexivity|].
    rewrite !length_app. cbn [length]. lia.
  - run_call ltac:(cbn [map tshape compute_output_shape]; rewrite Had; reflexivity).
    rewrite (transformer_encoder_tail _ _ b N d m) by solve [reflexivity | lia].
    eexists. eexists. split; [reflexivity|]. split; [reflexivity|].
    rewrite !length_app. cbn [length]. lia.
  - run_step ltac:(reflexivity).
    rewrite (transformer_encoder_tail _ _ b N d m) by solve [reflexivity | lia].
    eexists. eexists. split; [reflexivity|]. split; [reflexivity|].
    rewrite !length_app. cbn [length]. lia.
Qed.

Lemma transformer_loop_run blocks :
  forall x b N d m H k ad pd attention_type g,
  tshape x = [b; Some N; Some d] ->
  0 < N -> 0 < d -> 0 <= m -> 0 < H -> 0 < k -> d mod H = 0 ->
  valid_rate ad = true -> valid_rate pd = true ->
  exists y g',
    transformer_loop blocks x d m H k ad pd attention_type g = (inr y, g')
    /\ tshape y = [b; Some N; Some d]
    /\ length g' = (length g + blocks * nodes_per_block attention_type)%nat.
Proof.
  induction blocks as [|blocks IH];
    intros x b N d m H k ad pd attention_type g Hx HN Hd Hm HH Hk Hmod Had Hpd.
  - exists x, g. cbn [transformer_loop]. repeat split; [assumption | lia].
  - cbn [transformer_loop].
    destruct (transformer_encoder_block x b N d m H k ad pd attention_type g)
      as (y & g1 & Erun & Hy & Hlen); try assumption.
    destruct (IH y b N d m H k ad pd attention_type g1)
      as (z & g2 & Eloop & Hz & Hlen2); try assumption.
    exists z, g2. split; [| split; [assumption | lia]].
    erewrite bind_ok by exact Erun. exact Eloop.
Qed.

(** X9. The loop of [get_model] composes: under valid hyperparameters,
    any number of blocks of any attention type returns a tensor of the
    shape of the embedded patches, and the graph has grown by
    [nodes_per_block] nodes per block (22, 9 or 8). *)
Theorem transformer_blocks_run n x b N d m H k ad pd attention_type g :
  tshape x = [b; Some N; Some d] ->
  0 < N -> 0 < d -> 0 <= m -> 0 < H -> 0 < k -> d mod H = 0 ->
  valid_rate ad = true -> valid_rate pd = true ->
  exists y g',
    transformer_blocks n x d m H k ad pd attention_type g = (inr y, g')
    /\ tshape y = tshape x
    /\ length g' = (length g + Z.to_nat n * nodes_per_block attention_type)%nat.
Proof.
  intros Hx. rewrite Hx. unfold transformer_blocks. intros.
  apply transformer_loop_run; assumption.
Qed.

Lemma transformer_blocks_run_witness :
  exists y g',
    transformer_blocks num_transformer_blocks embedded_patches embedding_dim
      mlp_dim num_heads dim_coefficient attention_dropout projection_dropout
      "external_attention" embedded_graph = (inr y, g')
    /\ tshape y = tshape embedded_patches
    /\ length g' = (length embedded_graph
                    + Z.to_nat num_transformer_blocks
                      * nodes_per_block "external_attention")%nat.
Proof.
  apply (transformer_blocks_run num_transformer_blocks embedded_patches
           None 256 64 64 4 4);
    [reflexivity | lia | lia | lia | lia | lia | reflexivity
    | reflexivity | reflexivity].
Defined.

(** *** The MLP block *)

(** X10. On a tensor of any rank from 2 on whose last dimension is
    defined, [mlp] returns a tensor with the same leading dimensions and
    last dimension [embedding_dim], for any hidden width [mlp_dim] from 0
    on and any valid [drop_rate], and adds four nodes. *)
Theorem mlp_shape x leading c d m r g :
  tshape x = leading ++ [Some c] -> (0 < length leading)%nat ->
  0 <= d -> 0 <= m -> valid_rate r = true ->
  mlp x d m r g =
    (inr {| tid := length g + 3; tshape := leading ++ [Some d] |},
     g ++ [ {| op := Dense m gelu; inbound := [tid x] |};
            {| op := Dropout r; inbound := [length g] |};
            {| op := Dense d linear; inbound := [length g + 1]%nat |};
            {| op := Dropout r; inbound := [length g + 2]%nat |} ]).
Proof.
  intros Hx Hlen Hd Hm Hr.
  assert (Hlead : leading <> []) by (intros ->; cbn in Hlen; lia).
  destruct x as [xid xs]. cbn [tshape tid] in *. subst xs.
  unfold mlp.
  run_call ltac:(apply dense_shape_ok; assumption).
  run_call ltac:(rewrite Hr; reflexivity).
  run_call ltac:(apply dense_shape_ok; assumption).
  run_call ltac:(rewrite Hr; reflexivity).
  unfold ret. cbn [map tid app].
  repeat rewrite <- app_assoc. cbn [app].
  repeat rewrite length_app. cbn [length].
  repeat rewrite <- Nat.add_assoc. cbn [Nat.add].
  reflexivity.
Qed.

Lemma mlp_shape_witness :
  mlp {| tid := 0; tshape := [None; Some 16; Some 16; Some 12] |} 64 0 (1 # 2)
    embedded_graph =
    (inr {| tid := length embedded_graph + 3;
            tshape := [None; Some 16; Some 16] ++ [Some 64] |},
     embedded_graph ++
       [ {| op := Dense 0 gelu; inbound := [0%nat] |};
         {| op := Dropout (1 # 2); inbound := [length embedded_graph] |};
         {| op := Dense 64 linear; inbound := [length embedded_graph + 1]%nat |};
         {| op := Dropout (1 # 2); inbound := [length embedded_graph + 2]%nat |} ]).
Proof.
  apply (mlp_shape {| tid := 0; tshape := [None; Some 16; Some 16; Some 12] |}
           [None; Some 16; Some 16] 12 64 0 (1 # 2) embedded_graph);
    [reflexivity | simpl; lia | lia | lia | reflexivity].
Defined.

(** *** What every run does to the graph *)

Lemma ordered_from_app i g new :
  ordered_from i (g ++ new) =
    ordered_from i g && ordered_from (i + length g) new.
Proof.
  revert i. induction g as [|n g IH]; intros i; cbn [app ordered_from length].
  - rewrite Nat.add_0_r. reflexivity.
  - rewrite IH, andb_assoc.
    replace (S i + length g)%nat with (i + S (length g))%nat by lia. reflexivity.
Qed.

Lemma live_app g new x : live g x -> live (g ++ new) x.
Proof. unfold live. rewrite length_app. lia. Qed.

Lemma appends_same {A} (post : A -> graph -> Prop) (m : M A) g r :
  m g = (r, g) -> ordered g = true ->
  (forall a, r = inr a -> post a g) ->
  appends 0 post m g.
Proof.
  intros E Hord Hpost. exists []. rewrite E, app_nil_r. cbn [fst snd length].
  repeat split; [lia | assumption | assumption].
Qed.

Lemma appends_call l inputs g :
  ordered g = true -> Forall (live g) inputs ->
  appends 1 (fun y g' => live g' y) (call l inputs) g.
Proof.
  intros Hord Hlive. unfold call.
  destruct (compute_output_shape l (map tshape inputs)) as [e | s].
  - exists []. rewrite app_nil_r. cbn [fst snd length].
    repeat split; [lia | assumption | discriminate].
  - exists [{| op := l; inbound := map tid inputs |}]. cbn [fst snd length].
    repeat split; [lia | |].
    + unfold ordered in *. rewrite ordered_from_app, Hord.
      cbn [andb ordered_from inbound Nat.add]. rewrite andb_true_r.
      apply forallb_forall. intros j Hj. apply in_map_iff in Hj.
      destruct Hj as (x & <- & Hx). apply Nat.ltb_lt.
      rewrite Forall_forall in Hlive. exact (Hlive x Hx).
    + intros a Ha. injection Ha as <-. unfold live. cbn [tid].
      rewrite length_app. cbn [length]. lia.
Qed.

Lemma appends_bind {A B} k1 k2 (post1 : A -> graph -> Prop)
    (post2 : B -> graph -> Prop) (m : M A) (f : A -> M B) g :
  appends k1 post1 m g ->
  (forall a new, ordered (g ++ new) = true -> post1 a (g ++ new) ->
     appends k2 post2 (f a) (g ++ new)) ->
  appends (k1 + k2) post2 (bind m f) g.
Proof.
  intros (new1 & E1 & Hlen1 & Hord1 & Hpost1) Hf. unfold appends, bind.
  destruct (m g) as [[e | a] g1] eqn:Em; cbn [fst snd] in *; subst g1.
  - exists new1. cbn [fst snd]. repeat split; [lia | assumption | discriminate].
  - destruct (Hf a new1 Hord1 (Hpost1 a eq_refl))
      as (new2 & E2 & Hlen2 & Hord2 & Hpost2).
    exists (new1 ++ new2). rewrite app_assoc, length_app.
    repeat split; [assumption | lia | assumption | assumption].
Qed.

Lemma appends_weaken {A} k k' (post post' : A -> graph -> Prop) (m : M A) g :
  appends k post m g -> (k <= k')%nat ->
  (forall a g', post a g' -> post' a g') ->
  appends k' post' m g.
Proof.
  intros (new & E & Hlen & Hord & Hpost) Hk Himp.
  exists new. repeat split; [assumption | lia | assumption |].
  intros a Ha. apply Himp, Hpost, Ha.
Qed.

(** A step that does not touch the graph, followed by the rest. *)
Lemma appends_after {A B} k (post : B -> graph -> Prop) (m : M A) (f : A -> M B) g :
  (forall g0, snd (m g0) = g0) -> ordered g = true ->
  (forall a, appends k post (f a) g) ->
  appends k post (bind m f) g.
Proof.
  intros Hsame Hord Hf. specialize (Hsame g).
  destruct (m g) as [[e | a] g1] eqn:Em; cbn [snd] in Hsame; subst g1.
  - exists []. unfold bind. rewrite Em, app_nil_r. cbn [fst snd length].
    repeat split; [lia | assumption | discriminate].
  - specialize (Hf a). unfold appends, bind in *. rewrite Em. exact Hf.
Qed.

Ltac solve_live :=
  repeat first [ assumption | apply Forall_nil | apply Forall_cons | apply live_app ].

(** A call at the head of the run: one node, and the tensor it returns is
    live from then on. *)
Ltac after_call :=
  eapply appends_bind;
    [ apply appends_call; [assumption | solve_live]
    | let y := fresh "y" in let new := fresh "new" in
      let Hord := fresh "Hord" in let Hy := fresh "Hy" in
      intros y new Hord Hy; cbv beta in Hy ].

Ltac after_pure :=
  apply appends_after;
    [ let g0 := fresh "g0" in intros g0;
      first [ reflexivity
            | unfold py_mod, py_floordiv, py_assert, as_int, unpack3;
              repeat match goal with
                     | |- context [if ?c then _ else _] => destruct c
                     | |- context [match ?s with _ => _ end] => destruct s
                     end; reflexivity ]
    | assumption
    | intros ? ].

Lemma external_attention_appends x d H k ad pd g :
  ordered g = true -> live g x ->
  appends 14 (fun y g' => live g' y) (external_attention x d H k ad pd) g.
Proof.
  intros Hord Hx. unfold external_attention.
  after_pure. after_pure. after_pure.
  eapply appends_weaken; [| | intros t g' Ht; exact Ht].
  - after_call. after_pure. after_pure.
    after_call. after_call. after_pure.
    after_call. after_call. after_call. after_call. after_call. after_call.
    after_pure.
    after_call. after_call. after_call. after_call. after_call.
    apply (appends_same _ _ _ (inr y12)); [reflexivity | assumption |].
    intros t Ht. injection Ht as <-. exact Hy12.
  - cbn [Nat.add]. lia.
Qed.

Lemma mlp_appends x d m r g :
  ordered g = true -> live g x ->
  appends 4 (fun y g' => live g' y) (mlp x d m r) g.
Proof.
  intros Hord Hx. unfold mlp.
  eapply appends_weaken; [| | intros t g' Ht; exact Ht].
  - after_call. after_call. after_call. after_call.
    apply (appends_same _ _ _ (inr y2)); [reflexivity | assumption |].
    intros t Ht. injection Ht as <-. exact Hy2.
  - cbn [Nat.add]. lia.
Qed.

Lemma transformer_encoder_appends x d m H k ad pd attention_type g :
  ordered g = true -> live g x ->
  appends 22 (fun y g' => live g' y)
    (transformer_encoder x d m H k ad pd attention_type) g.
Proof.
  intros Hord Hx. unfold transformer_encoder.
  eapply appends_weaken; [| | intros t g' Ht; exact Ht].
  - after_call.
    eapply (appends_bind 14 _ (fun y g' => live g' y)).
    { destruct (String.eqb attention_type "external_attention");
        [| destruct (String.eqb attention_type "self_attention")].
      - apply external_attention_appends; assumption.
      - apply (appends_weaken 1 14 (fun y g' => live g' y));
          [apply appends_call; [assumption | solve_live] | lia | auto].
      - apply (appends_weaken 0 14 (fun y g' => live g' y)); [| lia | auto].
        apply (appends_same _ _ _ (inr y)); [reflexivity | assumption |].
        intros t Ht. injection Ht as <-. exact Hy. }
    intros a newA HordA Ha. cbv beta in Ha.
    after_call. after_call.
    eapply appends_bind; [apply mlp_appends; assumption |].
    intros z newZ HordZ Hz. cbv beta in Hz.
    after_call.
    apply (appends_same _ _ _ (inr y2)); [reflexivity | assumption |].
    intros t Ht. injection Ht as <-. exact Hy2.
  - cbn [Nat.add]. lia.
Qed.

(** X11. Whatever its arguments, and whether it returns or raises,
    [transformer_encoder] called on a tensor of a graph in construction
    order only appends to the graph: the old graph is a prefix of the new
    one, at most 22 nodes are added, the new graph is in construction
    order, and a returned tensor is produced by one of its nodes. *)
Theorem transformer_encoder_only_appends x d m H k ad pd attention_type g :
  ordered g = true -> (tid x < length g)%nat ->
  exists new,
    snd (transformer_encoder x d m H k ad pd attention_type g) = g ++ new
    /\ (length new <= 22)%nat
    /\ ordered (g ++ new) = true
    /\ forall y,
         fst (transformer_encoder x d m H k ad pd attention_type g) = inr y ->
         (tid y < length (g ++ new))%nat.
Proof.
  intros Hord Hx.
  exact (transformer_encoder_appends x d m H k ad pd attention_type g Hord Hx).
Qed.

Lemma transformer_encoder_only_appends_witness :
  exists new,
    snd (transformer_encoder embedded_patches 65 64 4 0 (7 # 1) (2 # 10)
           "external_attention" embedded_graph) = embedded_graph ++ new
    /\ (length new <= 22)%nat
    /\ ordered (embedded_graph ++ new) = true
    /\ forall y,
         fst (transformer_encoder embedded_patches 65 64 4 0 (7 # 1) (2 # 10)
                "external_attention" embedded_graph) = inr y ->
         (tid y < length (embedded_graph ++ new))%nat.
Proof.
  apply transformer_encoder_only_appends; [reflexivity | simpl; lia].
Defined.

Lemma transformer_loop_appends blocks :
  forall x d m H k ad pd attention_type g,
  ordered g = true -> live g x ->
  appends (blocks * 22) (fun y g' => live g' y)
    (transformer_loop blocks x d m H k ad pd attention_type) g.
Proof.
  induction blocks as [|blocks IH]; intros x d m H k ad pd attention_type g Hord Hx;
    cbn [transformer_loop].
  - apply (appends_same _ _ _ (inr x)); [reflexivity | assumption |].
    intros t Ht. injection Ht as <-. exact Hx.
  - eapply appends_weaken; [| | intros t g' Ht; exact Ht].
    + eapply appends_bind; [apply transformer_encoder_appends; assumption |].
      intros y new Hord' Hy. cbv beta in Hy. apply IH; assumption.
    + lia.
Qed.

(** X12. The same holds for the whole loop of [get_model], with at most
    22 nodes per block, for any hyperparameters and any
    [attention_type]. *)
Theorem transformer_blocks_only_append n x d m H k ad pd attention_type g :
  ordered g = true -> (tid x < length g)%nat ->
  exists new,
    snd (transformer_blocks n x d m H k ad pd attention_type g) = g ++ new
    /\ (length new <= Z.to_nat n * 22)%nat
    /\ ordered (g ++ new) = true
    /\ forall y,
         fst (transformer_blocks n x d m H k ad pd attention_type g) = inr y ->
         (tid y < length (g ++ new))%nat.
Proof.
  intros Hord Hx. unfold transformer_blocks.
  exact (transformer_loop_appends (Z.to_nat n) x d m H k ad pd attention_type g
           Hord Hx).
Qed.

Lemma transformer_blocks_only_append_witness :
  exists new,
    snd (transformer_blocks num_transformer_blocks embedded_patches 64 64 4 4
           (2 # 10) (2 # 10) "self_attention" embedded_graph)
      = embedded_graph ++ new
    /\ (length new <= Z.to_nat num_transformer_blocks * 22)%nat
    /\ ordered (embedded_graph ++ new) = true
    /\ forall y,
         fst (transformer_blocks num_transformer_blocks embedded_patches 64 64 4 4
                (2 # 10) (2 # 10) "self_attention" embedded_graph) = inr y ->
         (tid y < length (embedded_graph ++ new))%nat.
Proof.
  apply transformer_blocks_only_append; [reflexivity | simpl; lia].
Defined.

End BlocksFacts.

(** ** Facts about tiles *)

Module TilesFacts.

Import Eager EagerFacts Tiles.
Local Open Scope nat_scope.

(** The source of a patch element in an image of any height and width. *)
Lemma patch_source_at p h w c rows cols n yq yr xq xr ch :
  yq < rows -> yr < p -> xq < cols -> xr < p -> ch < c ->
  patch_source p h w c rows cols (patch_index p rows cols c n yq yr xq xr ch)
    = ((n * h + (yq * p + yr)) * w + (xq * p + xr)) * c + ch.
Proof.
  intros Hyq Hyr Hxq Hxr Hch.
  unfold patch_source, patch_index. cbv zeta.
  replace (((n * rows + yq) * cols + xq) * (p * p * c) + ((yr * p + xr) * c + ch))
    with (((((n * rows + yq) * cols + xq) * p + yr) * p + xr) * c + ch) by ring.
  rewrite (digit_mod _ c ch Hch), (digit_div _ c ch Hch).
  rewrite (digit_mod _ p xr Hxr), (digit_div _ p xr Hxr).
  rewrite (digit_mod _ p yr Hyr), (digit_div _ p yr Hyr).
  rewrite (digit_mod _ cols xq Hxq), (digit_div _ cols xq Hxq).
  rewrite (digit_mod _ rows yq Hyq), (digit_div _ rows yq Hyq).
  reflexivity.
Qed.

Lemma crop_source_at p h w c rows cols n yq yr xq xr ch :
  yq < rows -> yr < p -> xq < cols -> xr < p -> ch < c ->
  crop_source h w (rows * p) (cols * p) c (image_index p rows cols c n yq yr xq xr ch)
    = ((n * h + (yq * p + yr)) * w + (xq * p + xr)) * c + ch.
Proof.
  intros Hyq Hyr Hxq Hxr Hch.
  assert (Hy : yq * p + yr < rows * p) by nia.
  assert (Hx : xq * p + xr < cols * p) by nia.
  unfold crop_source, image_index. cbv zeta.
  rewrite (digit_mod _ c ch Hch), (digit_div _ c ch Hch).
  rewrite (digit_mod _ (cols * p) _ Hx), (digit_div _ (cols * p) _ Hx).
  rewrite (digit_mod _ (rows * p) _ Hy), (digit_div _ (rows * p) _ Hy).
  reflexivity.
Qed.

Section Cropping.

Context {A : Type} (zero : A).

Lemma size4 b h w c : size [b; h; w; c] = b * h * w * c.
Proof. cbn [size fold_right]. ring. Qed.

(** The patches of an image are the patches of its crop. *)
Lemma extract_patches_crop p (images : tensor A) :
  extract_patches zero p images = extract_patches zero p (crop zero p images).
Proof.
  unfold crop.
  destruct images as [s pixels]. cbn [shape data].
  destruct s as [|b [|h [|w [|c [|e s]]]]]; try reflexivity.
  unfold extract_patches. cbn [shape data].
  destruct (Nat.eqb_spec p 0) as [|Hp]; [reflexivity|].
  rewrite !Nat.div_mul by assumption.
  set (rows := h / p). set (cols := w / p).
  do 2 f_equal. rewrite !size4.
  apply map_seq_ext. intros k Hk.
  destruct (patch_index_digits p rows cols c b k Hk)
    as (n & yq & yr & xq & xr & ch & -> & Hn & Hyq & Hyr & Hxq & Hxr & Hch).
  rewrite patch_source_at by assumption.
  rewrite patch_source_index by assumption.
  rewrite nth_map_seq by (apply image_index_bound; assumption).
  rewrite crop_source_at by assumption.
  reflexivity.
Qed.

Lemma PatchExtract_call_of_crop p (images : tensor A) :
  PatchExtract_call zero p images = PatchExtract_call zero p (crop zero p images).
Proof.
  destruct images as [s pixels].
  destruct s as [|b [|h [|w [|c [|e s]]]]]; try reflexivity.
  pose proof (extract_patches_crop p {| shape := [b; h; w; c]; data := pixels |}) as E.
  unfold PatchExtract_call. rewrite <- E. reflexivity.
Qed.

(** X13. [PatchExtract] never reads the rows and columns left over after
    the last whole tile: on any tensor it gives what it gives on the
    tensor cropped to whole tiles, result or exception. *)
Theorem PatchExtract_call_crop p (images : tensor A) :
  PatchExtract_call zero p images = PatchExtract_call zero p (crop zero p images).
Proof. apply PatchExtract_call_of_crop. Qed.

End Cropping.

Section Results.

Context {A : Type} (zero : A).

Lemma PatchExtract_call_unfold p b h w c (pixels : list A) :
  p <> 0 ->
  PatchExtract_call zero p {| shape := [b; h; w; c]; data := pixels |} =
    if size [b; h / p * (h / p); p * p * c] =? size [b; h / p; w / p; p * p * c]
    then inr {| shape := [b; h / p * (h / p); p * p * c];
                data := map (fun k => nth (patch_source p h w c (h / p) (w / p) k)
                                          pixels zero)
                            (seq 0 (size [b; h / p; w / p; p * p * c])) |}
    else inl InvalidArgumentError.
Proof.
  intros Hp. unfold PatchExtract_call, extract_patches. cbn [shape data].
  destruct (Nat.eqb_spec p 0) as [|_]; [contradiction|].
  cbn [shape last nth]. unfold reshape. cbn [shape data]. reflexivity.
Qed.

Lemma same_size_iff p b c r cols :
  p <> 0 ->
  size [b; r * r; p * p * c] = size [b; r; cols; p * p * c]
  <-> b = 0 \/ c = 0 \/ r = 0 \/ r = cols.
Proof.
  intros Hp. cbn [size fold_right]. rewrite !Nat.mul_1_r. split.
  - intros E.
    destruct (Nat.eq_dec b 0) as [|Hb]; [left; assumption|].
    destruct (Nat.eq_dec c 0) as [|Hc]; [right; left; assumption|].
    destruct (Nat.eq_dec r 0) as [|Hr]; [right; right; left; assumption|].
    right; right; right.
    apply Nat.mul_cancel_l in E; [|assumption].
    replace (r * r * (p * p * c)) with (p * p * c * r * r) in E by ring.
    replace (r * (cols * (p * p * c))) with (p * p * c * r * cols) in E by ring.
    apply Nat.mul_cancel_l in E; [assumption|].
    repeat (apply Nat.neq_mul_0; split); assumption.
  - intros [-> | [-> | [-> | <-]]]; ring.
Qed.

(** X14. [PatchExtract] returns exactly when [patch_size] is not 0 and the
    patch grid is square, (H // patch_size) = (W // patch_size), or there
    is nothing to reshape: an empty batch, no channels, or images lower
    than one patch.  In every other case it raises. *)
Theorem PatchExtract_call_returns_iff p b h w c (pixels : list A) :
  (exists patches,
     PatchExtract_call zero p {| shape := [b; h; w; c]; data := pixels |}
       = inr patches)
  <-> p <> 0 /\ (b = 0 \/ c = 0 \/ h / p = 0 \/ h / p = w / p).
Proof.
  destruct (Nat.eq_dec p 0) as [-> | Hp].
  - split; [intros (t & E); discriminate | intros [Hp _]; contradiction].
  - rewrite PatchExtract_call_unfold by assumption.
    rewrite <- (same_size_iff p b c (h / p) (w / p) Hp).
    destruct (Nat.eqb_spec (size [b; h / p * (h / p); p * p * c])
                           (size [b; h / p; w / p; p * p * c])) as [E | E].
    + split; [intros _; split; assumption | intros _; eexists; reflexivity].
    + split; [intros (t & Et); discriminate | intros [_ E']; contradiction].
Qed.

(** X15. A result of [PatchExtract] has the batch size of the input,
    (H // patch_size) squared patches of patch_size * patch_size * C
    elements, and a buffer of exactly the size its shape announces,
    whatever the buffer of the input was. *)
Theorem PatchExtract_call_result p b h w c (pixels : list A) patches :
  PatchExtract_call zero p {| shape := [b; h; w; c]; data := pixels |}
    = inr patches ->
  shape patches = [b; h / p * (h / p); p * p * c]
  /\ length (data patches) = size (shape patches).
Proof.
  intros E.
  destruct (Nat.eq_dec p 0) as [-> | Hp]; [discriminate|].
  rewrite PatchExtract_call_unfold in E by assumption.
  destruct (Nat.eqb_spec (size [b; h / p * (h / p); p * p * c])
                         (size [b; h / p; w / p; p * p * c])) as [Es | Es];
    [|discriminate].
  injection E as <-. cbn [shape data]. split; [reflexivity|].
  rewrite length_map, length_seq. symmetry. exact Es.
Qed.

(** X16. When the patch grid is square, reassembling what [PatchExtract]
    returns gives the images cropped to whole tiles: the round trip loses
    the leftover rows and columns and nothing else. *)
Theorem PatchExtract_reassemble_crop p b h w c (pixels : list A) :
  0 < p -> h / p = w / p ->
  exists patches,
    PatchExtract_call zero p {| shape := [b; h; w; c]; data := pixels |}
      = inr patches
    /\ reassemble zero p (h / p) (w / p) c patches
       = crop zero p {| shape := [b; h; w; c]; data := pixels |}.
Proof.
  intros Hp Hgrid.
  rewrite (PatchExtract_call_of_crop zero). unfold crop. cbn [shape data].
  rewrite <- Hgrid. set (g := h / p).
  eexists. split; [apply PatchExtract_call_square; assumption|].
  unfold reassemble. cbn [shape data nth]. f_equal.
  rewrite !size4. apply reassembled_pixels.
  rewrite length_map, length_seq. reflexivity.
Qed.

End Results.

Lemma PatchExtract_call_result_witness :
  shape {| shape := [1; 2 * 2; 2 * 2 * 1];
           data := [1; 2; 6; 7;  3; 4; 8; 9;  11; 12; 16; 17;  13; 14; 18; 19] |}
    = [1; 5 / 2 * (5 / 2); 2 * 2 * 1]
  /\ length (data {| shape := [1; 2 * 2; 2 * 2 * 1];
                     data := [1; 2; 6; 7;  3; 4; 8; 9;
                              11; 12; 16; 17;  13; 14; 18; 19] |})
     = size (shape {| shape := [1; 2 * 2; 2 * 2 * 1];
                      data := [1; 2; 6; 7;  3; 4; 8; 9;
                               11; 12; 16; 17;  13; 14; 18; 19] |}).
Proof.
  apply (PatchExtract_call_result 0 2 1 5 5 1 (seq 1 25)). reflexivity.
Defined.

Lemma PatchExtract_reassemble_crop_witness :
  exists patches,
    PatchExtract_call 0 2 {| shape := [1; 5; 4; 1]; data := seq 1 20 |}
      = inr patches
    /\ reassemble 0 2 (5 / 2) (4 / 2) 1 patches
       = crop 0 2 {| shape := [1; 5; 4; 1]; data := seq 1 20 |}.
Proof.
  apply (PatchExtract_reassemble_crop 0 2 1 5 4 1 (seq 1 20)); [lia | reflexivity].
Defined.

(** *** Nothing is lost and nothing is duplicated *)

Lemma reindex_permutation (src back : nat -> nat) n :
  (forall k, k < n -> src k < n) ->
  (forall k, k < n -> back (src k) = k) ->
  Permutation (map src (seq 0 n)) (seq 0 n).
Proof.
  intros Hin Hback. apply NoDup_Permutation_bis.
  - apply NoDup_map_NoDup_ForallPairs; [| apply seq_NoDup].
    intros i j Hi Hj E. apply in_seq in Hi, Hj.
    rewrite <- (Hback i), <- (Hback j) by lia. rewrite E. reflexivity.
  - rewrite length_map. reflexivity.
  - intros i Hi. apply in_map_iff in Hi. destruct Hi as (k & <- & Hk).
    apply in_seq in Hk. apply in_seq. specialize (Hin k). lia.
Qed.

Section Permuting.

Context {A : Type} (zero : A).

(** X17. On square images that whole tiles cover, the buffer that
    [PatchExtract] returns is a rearrangement of the pixel buffer: every
    pixel value occurs in the patches as often as in the images. *)
Theorem PatchExtract_call_permutes p g c b (pixels : list A) :
  0 < p -> length pixels = b * (g * p) * (g * p) * c ->
  exists patches,
    PatchExtract_call zero p {| shape := [b; g * p; g * p; c]; data := pixels |}
      = inr patches
    /\ Permutation (data patches) pixels.
Proof.
  intros Hp Hlen.
  eexists. split; [apply PatchExtract_call_square; assumption|].
  cbn [data].
  replace (b * g * g * (p * p * c)) with (length pixels) by (rewrite Hlen; ring).
  rewrite <- (map_map (patch_source p (g * p) (g * p) c g g)
                      (fun i => nth i pixels zero)).
  apply Permutation_trans
    with (map (fun i => nth i pixels zero) (seq 0 (length pixels)));
    [| rewrite map_nth_all; apply Permutation_refl].
  apply Permutation_map.
  apply (reindex_permutation _ (pixel_source p g g c)).
  - intros k Hk. rewrite Hlen in *.
    replace (b * (g * p) * (g * p) * c) with (b * g * g * (p * p * c)) in Hk by ring.
    destruct (patch_index_digits p g g c b k Hk)
      as (n & yq & yr & xq & xr & ch & -> & Hn & Hyq & Hyr & Hxq & Hxr & Hch).
    rewrite patch_source_index by assumption.
    apply image_index_bound; assumption.
  - intros k Hk. rewrite Hlen in Hk.
    replace (b * (g * p) * (g * p) * c) with (b * g * g * (p * p * c)) in Hk by ring.
    destruct (patch_index_digits p g g c b k Hk)
      as (n & yq & yr & xq & xr & ch & -> & Hn & Hyq & Hyr & Hxq & Hxr & Hch).
    rewrite patch_source_index by assumption.
    apply pixel_source_index; assumption.
Qed.

End Permuting.

Lemma PatchExtract_call_permutes_witness :
  exists patches,
    PatchExtract_call 0 2 {| shape := [1; 2 * 2; 2 * 2; 3]; data := seq 0 48 |}
      = inr patches
    /\ Permutation (data patches) (seq 0 48).
Proof.
  apply (PatchExtract_call_permutes 0 2 2 3 1 (seq 0 48)); [lia | reflexivity].
Defined.

End TilesFacts.

(** ** Facts about the patch embedding *)

Module EmbeddingFacts.

Import Keras KerasFacts Embedding.
Local Open Scope Z_scope.

Lemma positions_eq n :
  positions n = inr (map Z.of_nat (seq 0 (Z.to_nat n))).
Proof.
  unfold positions, tf_range. cbn [Z.eqb Z.ltb Z.compare].
  replace (n - 0 + 1 - 1) with n by ring. rewrite Z.div_1_r.
  f_equal. apply map_ext. intros i. ring.
Qed.

(** X19. The position indices that [PatchEmbedding] looks up are
    0, 1, ..., num_patch - 1, each once and in order: every index is a row
    of the embedding table of [num_patch] rows, and every row is used. *)
Theorem positions_cover_table n pos :
  positions n = inr pos ->
  pos = map Z.of_nat (seq 0 (Z.to_nat n))
  /\ NoDup pos
  /\ forall i, In i pos <-> 0 <= i < n.
Proof.
  rewrite positions_eq. intros E. injection E as <-.
  split; [reflexivity|]. split.
  - apply NoDup_map_NoDup_ForallPairs; [| apply seq_NoDup].
    intros i j _ _ E. apply Nat2Z.inj. exact E.
  - intros i. rewrite in_map_iff. split.
    + intros (k & <- & Hk). apply in_seq in Hk. lia.
    + intros Hi. exists (Z.to_nat i). split; [lia|]. apply in_seq. lia.
Qed.

Lemma positions_cover_table_witness :
  [0; 1; 2; 3] = map Z.of_nat (seq 0 (Z.to_nat 4))
  /\ NoDup [0; 1; 2; 3]
  /\ forall i, In i [0; 1; 2; 3] <-> 0 <= i < 4.
Proof.
  apply (positions_cover_table 4 [0; 1; 2; 3]). reflexivity.
Defined.

Lemma PatchEmbedding_unfold n e b N pd :
  0 < n -> 0 < e ->
  PatchEmbedding n e [b; Some N; Some pd] =
    match broadcast_dim (Some N) (Some n) with
    | inr d => inr [b; d; Some e]
    | inl err => inl err
    end.
Proof.
  intros Hn He. unfold PatchEmbedding.
  destruct (Z.ltb_spec e 0); [lia|].
  destruct (Z.leb_spec n 0); [lia|]. destruct (Z.leb_spec e 0); [lia|].
  cbn [orb]. rewrite positions_eq.
  change [b; Some N; Some pd] with ([b; Some N] ++ [Some pd]).
  rewrite (dense_shape_ok e [b; Some N] pd) by (try lia; discriminate).
  unfold embedding_shape.
  destruct (Z.leb_spec n 0); [lia|]. destruct (Z.leb_spec e 0); [lia|].
  cbn [orb app]. rewrite length_map, length_seq, Z2Nat.id by lia.
  unfold broadcast_shape. cbn [rev app broadcast_aligned].
  rewrite broadcast_dim_refl.
  destruct (broadcast_dim (Some N) (Some n)); reflexivity.
Qed.

Lemma PatchEmbedding_same_or_one n e b N pd :
  0 < n -> 0 < e -> 0 < N ->
  N = n \/ N = 1 \/ n = 1 ->
  PatchEmbedding n e [b; Some N; Some pd] = inr [b; Some (Z.max N n); Some e].
Proof.
  intros Hn He HN Hcase. rewrite PatchEmbedding_unfold by assumption.
  cbn [broadcast_dim].
  destruct (Z.eqb_spec N 1) as [-> | HN1].
  - rewrite Z.max_r by lia. reflexivity.
  - destruct (Z.eqb_spec n 1) as [-> | Hn1].
    + rewrite Z.max_l by lia. reflexivity.
    + destruct Hcase as [-> | [-> | ->]]; try contradiction.
      rewrite Z.eqb_refl, Z.max_id. reflexivity.
Qed.

(** X20. [PatchEmbedding] adds with broadcasting: it returns when the
    sequence has [num_patch] patches, and also when it has one patch or the
    layer was made for one.  The result then has the longer of the two
    lengths: a single patch comes back as [num_patch] embeddings. *)
Theorem PatchEmbedding_broadcasts n e b N pd :
  0 < n -> 0 < e -> 0 < N ->
  N = n \/ N = 1 \/ n = 1 ->
  PatchEmbedding n e [b; Some N; Some pd] = inr [b; Some (Z.max N n); Some e].
Proof. apply PatchEmbedding_same_or_one. Qed.

Lemma PatchEmbedding_broadcasts_witness :
  PatchEmbedding 256 64 [None; Some 1; Some 12]
    = inr [None; Some (Z.max 1 256); Some 64].
Proof.
  apply PatchEmbedding_broadcasts; [lia | lia | lia | right; left; reflexivity].
Defined.

(** X21. Any other sequence length is refused: the addition of the
    projected patches and the position embeddings raises [ValueError]. *)
Theorem PatchEmbedding_length_mismatch n e b N pd :
  0 < n -> 0 < e -> N <> n -> N <> 1 -> n <> 1 ->
  PatchEmbedding n e [b; Some N; Some pd] = inl ValueError.
Proof.
  intros Hn He HNn HN1 Hn1. rewrite PatchEmbedding_unfold by assumption.
  cbn [broadcast_dim].
  apply Z.eqb_neq in HNn, HN1, Hn1. rewrite HNn, HN1, Hn1. reflexivity.
Qed.

Lemma PatchEmbedding_length_mismatch_witness :
  PatchEmbedding 256 64 [None; Some 255; Some 12] = inl ValueError.
Proof.
  apply PatchEmbedding_length_mismatch; lia.
Defined.



End EmbeddingFacts.
